(** * K-Stan Master (src/index.tsx): the question lifecycle

    A shallow embedding of the game logic of [src/index.tsx]: the question
    provider [fetchGameQuestion], the [GameSession] component (its state, its
    handlers [loadQuestion] and [handleAnswer], what it renders) and the [App]
    component that owns the mode and the score.

    Conventions.
    - A JavaScript string is the list of its UTF-16 code units ([jsstring]);
      [===] on strings is equality of these lists, the empty string is falsy.
    - What [JSON.parse] returns is cast to [Question] without a check, so
      the question, its options, and with them the selected option are
      whatever values the reply contained ([JSValue]).
    - [score] and [streak] are JavaScript numbers that only ever hold
      integers; they are modelled in [Z], which is exact as long as they stay
      below 2^53.
    - React state is passed explicitly.  Every handler runs against the
      committed state of the render that created it (React commits the
      updates of a click before the next event is handled), so a handler is a
      function from the state to the next state.
    - The built-ins the program relies on, [JSON.parse],
      [String.fromCharCode], [===] and what React accepts as a child, are
      written out below. *)

From Stdlib Require Import ZArith NArith String Ascii.
From stdpp Require Import base tactics option list numbers.

Local Open Scope N_scope.
#[local] Set Warnings "-register-all".

(** ** JavaScript strings and values *)

Definition jsstring := list N.

(** An ASCII literal as a JavaScript string. *)
Definition js (s : string) : jsstring :=
  List.map N_of_ascii (list_ascii_of_string s).

(** [String.fromCharCode(n)]: one code unit, [n] taken modulo 2^16. *)
Definition fromCharCode (n : Z) : jsstring := [Z.to_N (n mod 65536)%Z].

(** The values [JSON.parse] can produce.  A number is kept as the decimal it
    was written as: [JNumber neg m e] is (-1)^neg * m * 10^e.  An object is
    the list of its members in the order of the text. *)
Inductive JSValue : Type :=
| JNull
| JBool (b : bool)
| JNumber (neg : bool) (m : N) (e : Z)
| JString (s : jsstring)
| JArray (elements : list JSValue)
| JObject (members : list (jsstring * JSValue)).

(** A decimal literal denotes the number 0 when its digits are all zero or
    when it rounds to zero as a double: |m * 10^e| <= 2^(-1075), half of the
    least positive double (ties go to the even neighbour, which is 0). *)
Definition number_is_zero (m : N) (e : Z) : bool :=
  (m =? 0) ||
  ((e <? 0)%Z && (Z.of_N m * 2 ^ 1075 <=? 10 ^ (- e))%Z).

(** ToBoolean: what [if (v)] and [v ? a : b] test. *)
Definition truthy (v : JSValue) : bool :=
  match v with
  | JNull => false
  | JBool b => b
  | JNumber _ m e => negb (number_is_zero m e)
  | JString s => negb (bool_decide (s = []))
  | JArray _ => true
  | JObject _ => true
  end.

(** Property read [v.name] for the field names of [Question].  Only an object
    has such a property; when the text repeated a key, [JSON.parse] kept the
    last value.  [None] is [undefined]. *)
Fixpoint lookup_member (name : jsstring) (members : list (jsstring * JSValue))
  : option JSValue :=
  match members with
  | [] => None
  | (k, v) :: rest =>
      match lookup_member name rest with
      | Some w => Some w
      | None => if bool_decide (k = name) then Some v else None
      end
  end.

Definition get_prop (name : jsstring) (v : JSValue) : option JSValue :=
  match v with
  | JObject members => lookup_member name members
  | _ => None
  end.

(** ** Numbers as doubles, and strict equality *)

(** The magnitude of a double: zero, [q * 2^k] with [2^52 <= q < 2^53] (or
    [k = -1074] and [0 < q < 2^52] for a subnormal), or infinity. *)
Inductive binary64 : Type :=
| B_zero
| B_finite (q : Z) (k : Z)
| B_infinity.

Global Instance binary64_eq_dec : EqDecision binary64.
Proof. solve_decision. Defined.

(** The integer nearest to [a / b], the even one of two equally near. *)
Definition round_div (a b : Z) : Z :=
  let q := (a / b)%Z in
  match (2 * (a mod b) ?= b)%Z with
  | Lt => q
  | Gt => (q + 1)%Z
  | Eq => if Z.even q then q else (q + 1)%Z
  end.

(** [2^l <= num / den]. *)
Definition at_least_pow2 (num den l : Z) : bool :=
  if (0 <=? l)%Z then (den * 2 ^ l <=? num)%Z
  else (den <=? num * 2 ^ (- l))%Z.

(** The double nearest to [m * 10^e], as [JSON.parse] computes the value of
    a number. *)
Definition double_magnitude (m : N) (e : Z) : binary64 :=
  if m =? 0 then B_zero
  else
    let num := if (0 <=? e)%Z then (Z.of_N m * 10 ^ e)%Z else Z.of_N m in
    let den := if (0 <=? e)%Z then 1%Z else (10 ^ (- e))%Z in
    let l0 := (Z.log2 num - Z.log2 den)%Z in
    let l := if at_least_pow2 num den l0 then l0 else (l0 - 1)%Z in
    let k := Z.max (l - 52) (-1074) in
    let q := if (0 <=? k)%Z then round_div num (den * 2 ^ k)
             else round_div (num * 2 ^ (- k)) den in
    let '(q, k) := if (q =? 2 ^ 53)%Z then ((2 ^ 52)%Z, (k + 1)%Z)
                   else (q, k) in
    if (q =? 0)%Z then B_zero
    else if (971 <? k)%Z then B_infinity
    else B_finite q k.

(** [a === b] for two values of one parsed text.  Numbers are compared as
    doubles (0 and -0 are equal).  An object or an array is equal only to
    itself, and [===] is applied only to an option and the correct answer,
    which are different nodes of the parsed text: never equal. *)
Definition strict_equal (a b : JSValue) : bool :=
  match a, b with
  | JNull, JNull => true
  | JBool x, JBool y => Bool.eqb x y
  | JNumber n1 m1 e1, JNumber n2 m2 e2 =>
      match double_magnitude m1 e1, double_magnitude m2 e2 with
      | B_zero, B_zero => true
      | d1, d2 => bool_decide (d1 = d2) && Bool.eqb n1 n2
      end
  | JString s, JString t => bool_decide (s = t)
  | _, _ => false
  end.

(** What React accepts as a child: text for a string or a number, nothing
    for null and the booleans, the elements of an array one after the other;
    an object that is not an element makes it throw. *)
Fixpoint renderable (v : JSValue) : bool :=
  match v with
  | JObject _ => false
  | JArray l => forallb renderable l
  | _ => true
  end.

(** A child that is read from a property; [undefined] renders nothing. *)
Definition child_ok (c : option JSValue) : bool :=
  match c with
  | Some v => renderable v
  | None => true
  end.

(** ** JSON.parse *)

Module JSON.

Inductive outcome (A : Type) : Type :=
| Parsed (a : A)
| SyntaxError
| OutOfFuel.
Arguments Parsed {A} a.
Arguments SyntaxError {A}.
Arguments OutOfFuel {A}.

Definition bind {A B} (x : outcome A) (k : A -> outcome B) : outcome B :=
  match x with
  | Parsed a => k a
  | SyntaxError => SyntaxError
  | OutOfFuel => OutOfFuel
  end.

Definition of_option {A} (x : option A) : outcome A :=
  match x with Some a => Parsed a | None => SyntaxError end.

(** White space: tab, line feed, carriage return, space. *)
Definition is_ws (c : N) : bool :=
  (c =? 9) || (c =? 10) || (c =? 13) || (c =? 32).

Fixpoint skip_ws (s : jsstring) : jsstring :=
  match s with
  | c :: r => if is_ws c then skip_ws r else s
  | [] => []
  end.

Definition is_digit (c : N) : bool := (48 <=? c) && (c <=? 57).

Definition hex_value (c : N) : option N :=
  if (48 <=? c) && (c <=? 57) then Some (c - 48)
  else if (65 <=? c) && (c <=? 70) then Some (c - 55)
  else if (97 <=? c) && (c <=? 102) then Some (c - 87)
  else None.

(** The one-letter escapes of a string literal (the letter after the
    backslash); the remaining escape is u with four hexadecimal digits. *)
Definition simple_escape (c : N) : option N :=
  if c =? 34 then Some 34          (* quote *)
  else if c =? 92 then Some 92     (* backslash *)
  else if c =? 47 then Some 47     (* slash *)
  else if c =? 98 then Some 8      (* b: backspace *)
  else if c =? 102 then Some 12    (* f: form feed *)
  else if c =? 110 then Some 10    (* n: line feed *)
  else if c =? 114 then Some 13    (* r: carriage return *)
  else if c =? 116 then Some 9     (* t: tab *)
  else None.

(** The characters of a string literal, after the opening quote, up to and
    including the closing one. *)
Fixpoint string_chars (s : jsstring) : option (jsstring * jsstring) :=
  match s with
  | [] => None
  | c :: r =>
      if c =? 34 then Some ([], r)
      else if c =? 92 then
        match r with
        | [] => None
        | e :: r1 =>
            if e =? 117 then
              match r1 with
              | h1 :: h2 :: h3 :: h4 :: r2 =>
                  match hex_value h1, hex_value h2, hex_value h3, hex_value h4 with
                  | Some a, Some b, Some c', Some d =>
                      match string_chars r2 with
                      | Some (cs, rest) =>
                          Some ((a * 4096 + b * 256 + c' * 16 + d) :: cs, rest)
                      | None => None
                      end
                  | _, _, _, _ => None
                  end
              | _ => None
              end
            else
              match simple_escape e with
              | Some u =>
                  match string_chars r1 with
                  | Some (cs, rest) => Some (u :: cs, rest)
                  | None => None
                  end
              | None => None
              end
        end
      else if c <? 32 then None
      else
        match string_chars r with
        | Some (cs, rest) => Some (c :: cs, rest)
        | None => None
        end
  end.

(** The longest prefix of decimal digits, and what follows it. *)
Fixpoint digits (s : jsstring) : jsstring * jsstring :=
  match s with
  | c :: r =>
      if is_digit c then let '(ds, rest) := digits r in (c :: ds, rest)
      else ([], s)
  | [] => ([], [])
  end.

Definition digits_value (ds : jsstring) : N :=
  fold_left (fun acc c => acc * 10 + (c - 48)) ds 0.

(** Integer part: a single 0, or a non-zero digit followed by digits. *)
Definition int_part (s : jsstring) : option (jsstring * jsstring) :=
  match s with
  | c :: r =>
      if c =? 48 then Some ([c], r)
      else if is_digit c then let '(ds, rest) := digits r in Some (c :: ds, rest)
      else None
  | [] => None
  end.

(** Optional fraction: a dot followed by at least one digit. *)
Definition frac_part (s : jsstring) : option (jsstring * jsstring) :=
  match s with
  | c :: r =>
      if c =? 46 then
        match digits r with
        | ([], _) => None
        | (ds, rest) => Some (ds, rest)
        end
      else Some ([], s)
  | [] => Some ([], [])
  end.

(** Optional exponent: e or E, an optional sign, at least one digit. *)
Definition exp_digits (neg : bool) (s : jsstring) : option (Z * jsstring) :=
  match digits s with
  | ([], _) => None
  | (ds, rest) =>
      let v := Z.of_N (digits_value ds) in
      Some (if neg then (- v)%Z else v, rest)
  end.

Definition exp_part (s : jsstring) : option (Z * jsstring) :=
  match s with
  | c :: r =>
      if (c =? 101) || (c =? 69) then
        match r with
        | sg :: r1 =>
            if sg =? 43 then exp_digits false r1
            else if sg =? 45 then exp_digits true r1
            else exp_digits false r
        | [] => None
        end
      else Some (0%Z, s)
  | [] => Some (0%Z, [])
  end.

(** A number literal, after its optional minus sign. *)
Definition number (neg : bool) (s : jsstring) : option (JSValue * jsstring) :=
  match int_part s with
  | Some (ip, r1) =>
      match frac_part r1 with
      | Some (fp, r2) =>
          match exp_part r2 with
          | Some (ex, r3) =>
              Some (JNumber neg (digits_value (ip ++ fp))
                      (ex - Z.of_nat (length fp))%Z, r3)
          | None => None
          end
      | None => None
      end
  | None => None
  end.

(** [s] with the prefix [w] removed, when it starts with [w]. *)
Fixpoint strip_prefix (w s : jsstring) : option jsstring :=
  match w, s with
  | [], _ => Some s
  | a :: w', b :: s' => if a =? b then strip_prefix w' s' else None
  | _ :: _, [] => None
  end.

Definition keyword (w : string) (v : JSValue) (s : jsstring)
  : outcome (JSValue * jsstring) :=
  match strip_prefix (js w) s with
  | Some rest => Parsed (v, rest)
  | None => SyntaxError
  end.

(** A value at the head of [s] (no leading white space), the elements of an
    array after its first bracket, the members of an object after its first
    brace.  Each call spends one unit of fuel. *)
Fixpoint value (fuel : nat) (s : jsstring) : outcome (JSValue * jsstring) :=
  match fuel with
  | O => OutOfFuel
  | S n =>
      match s with
      | [] => SyntaxError
      | c :: r =>
          if c =? 123 then                                     (* { *)
            match skip_ws r with
            | c1 :: r1 =>
                if c1 =? 125 then Parsed (JObject [], r1)      (* } *)
                else members n (c1 :: r1) []
            | [] => SyntaxError
            end
          else if c =? 91 then                                 (* [ *)
            match skip_ws r with
            | c1 :: r1 =>
                if c1 =? 93 then Parsed (JArray [], r1)        (* ] *)
                else elements n (c1 :: r1) []
            | [] => SyntaxError
            end
          else if c =? 34 then                                 (* quote *)
            bind (of_option (string_chars r))
              (fun '(str, rest) => Parsed (JString str, rest))
          else if c =? 45 then of_option (number true r)       (* - *)
          else if is_digit c then of_option (number false s)
          else if c =? 116 then keyword "true" (JBool true) s
          else if c =? 102 then keyword "false" (JBool false) s
          else if c =? 110 then keyword "null" JNull s
          else SyntaxError
      end
  end
with elements (fuel : nat) (s : jsstring) (acc : list JSValue)
  : outcome (JSValue * jsstring) :=
  match fuel with
  | O => OutOfFuel
  | S n =>
      bind (value n s) (fun '(v, r) =>
        match skip_ws r with
        | c :: r1 =>
            if c =? 44 then elements n (skip_ws r1) (v :: acc)   (* , *)
            else if c =? 93 then Parsed (JArray (rev (v :: acc)), r1)
            else SyntaxError
        | [] => SyntaxError
        end)
  end
with members (fuel : nat) (s : jsstring) (acc : list (jsstring * JSValue))
  : outcome (JSValue * jsstring) :=
  match fuel with
  | O => OutOfFuel
  | S n =>
      match s with
      | c :: r =>
          if c =? 34 then
            bind (of_option (string_chars r)) (fun '(key, r1) =>
              match skip_ws r1 with
              | c1 :: r2 =>
                  if c1 =? 58 then                             (* : *)
                    bind (value n (skip_ws r2)) (fun '(v, r3) =>
                      match skip_ws r3 with
                      | c2 :: r4 =>
                          if c2 =? 44 then
                            members n (skip_ws r4) ((key, v) :: acc)
                          else if c2 =? 125 then
                            Parsed (JObject (rev ((key, v) :: acc)), r4)
                          else SyntaxError
                      | [] => SyntaxError
                      end)
                  else SyntaxError
              | [] => SyntaxError
              end)
          else SyntaxError
      | [] => SyntaxError
      end
  end.

(** A whole text: one value between optional white space. *)
Definition document (fuel : nat) (text : jsstring) : outcome JSValue :=
  bind (value fuel (skip_ws text)) (fun '(v, rest) =>
    match skip_ws rest with
    | [] => Parsed v
    | _ :: _ => SyntaxError
    end).

(** [JSON.parse(text)]: [None] when it throws a SyntaxError.  Two units of
    fuel per code unit are enough for every text
    ([JSON_fuel.document_fuel] below). *)
Definition parse (text : jsstring) : option JSValue :=
  match document (2 * length text + 1) text with
  | Parsed v => Some v
  | _ => None
  end.

End JSON.

(** ** Configuration and types (index.tsx, lines 8-23) *)

Inductive GameMode : Type := SONG | IDOL | CARD | MENU.

Global Instance GameMode_eq_dec : EqDecision GameMode.
Proof. solve_decision. Defined.

(** [interface Question]. *)
Record Question : Type := {
  questionText : jsstring;
  details : option jsstring;
  options : list jsstring;
  correctAnswer : jsstring;
  explanation : jsstring
}.

(** The run-time values that have the shape of a [Question]: an object whose
    members of these names have these types.  [JSON.parse(text) as Question]
    is an unchecked cast; [asQuestion] is the check it does not make. *)
Fixpoint as_strings (l : list JSValue) : option (list jsstring) :=
  match l with
  | [] => Some []
  | JString s :: rest =>
      match as_strings rest with
      | Some ss => Some (s :: ss)
      | None => None
      end
  | _ :: _ => None
  end.

Definition string_prop (name : string) (v : JSValue) : option jsstring :=
  match get_prop (js name) v with
  | Some (JString s) => Some s
  | _ => None
  end.

Definition optional_string_prop (name : string) (v : JSValue)
  : option (option jsstring) :=
  match get_prop (js name) v with
  | None => Some None
  | Some (JString s) => Some (Some s)
  | Some _ => None
  end.

Definition strings_prop (name : string) (v : JSValue)
  : option (list jsstring) :=
  match get_prop (js name) v with
  | Some (JArray l) => as_strings l
  | _ => None
  end.

Definition asQuestion (v : JSValue) : option Question :=
  match string_prop "questionText" v, optional_string_prop "details" v,
        strings_prop "options" v, string_prop "correctAnswer" v,
        string_prop "explanation" v with
  | Some qt, Some d, Some os, Some ca, Some ex =>
      Some {| questionText := qt; details := d; options := os;
              correctAnswer := ca; explanation := ex |}
  | _, _, _, _, _ => None
  end.

(** ** The question provider (lines 27-76) *)

(** The part of the SDK's [Schema] that [getQuestionSchema] uses. *)
Inductive Schema : Type :=
| STRING (description : option string)
| ARRAY (items : Schema) (description : option string)
| OBJECT (properties : list (string * Schema)) (required : list string).

Definition getQuestionSchema : Schema :=
  OBJECT
    [ ("questionText", STRING (Some "The main question or description"));
      ("details",
        STRING (Some "Supplemental info (e.g. lyrics, hints, card details)"));
      ("options",
        ARRAY (STRING None) (Some "A list of 4 possible answers"));
      ("correctAnswer",
        STRING (Some "The exact string from the options list that is correct"));
      ("explanation", STRING (Some "Brief explanation why it is correct")) ]%string
    [ "questionText"; "options"; "correctAnswer"; "explanation" ]%string.

(** A value conforms to a schema when it has the declared type, an array's
    elements conform to [items], an object has every required property and
    each declared property it has conforms.  A description constrains
    nothing. *)
Fixpoint conforms (sch : Schema) (v : JSValue) : bool :=
  match sch, v with
  | STRING _, JString _ => true
  | ARRAY items _, JArray l => forallb (conforms items) l
  | OBJECT properties required, JObject members =>
      forallb (fun k => bool_decide (is_Some (lookup_member (js k) members)))
              required
      && (fix props (ps : list (string * Schema)) : bool :=
            match ps with
            | [] => true
            | (k, sub) :: ps' =>
                match lookup_member (js k) members with
                | Some x => conforms sub x
                | None => true
                end && props ps'
            end) properties
  | _, _ => false
  end.

(** The argument of [ai.models.generateContent]. *)
Record GenerateContentParameters : Type := {
  model : string;
  contents : string;
  systemInstruction : string;
  responseMimeType : string;
  responseSchema : Schema;
  temperature : Z
}.

(** What creating the client and awaiting [generateContent] gives: an
    exception (no key, no network, an error status, ...) or a response, whose
    [text] is a string or [undefined]. *)
Inductive GenerateContentResult : Type :=
| Rejected
| Response (text : option jsstring).

Definition GenAI : Type := GenerateContentParameters -> GenerateContentResult.

Inductive Error : Type :=
| RequestError        (* thrown by the client or by generateContent *)
| NoResponseFromAI    (* new Error(No response from AI) *)
| JSONSyntaxError.    (* thrown by JSON.parse *)

Inductive Completion (A : Type) : Type :=
| Return (a : A)
| Throw (e : Error).
Arguments Return {A} a.
Arguments Throw {A} e.

Definition throws {A} (c : Completion A) : Prop :=
  match c with Throw _ => True | Return _ => False end.

(** The prompt and the system instruction of each mode (lines 48-60). *)
Definition prompts (mode : GameMode) : string * string :=
  match mode with
  | SONG =>
      ("Generate a multiple choice question where the user guesses the K-pop Song Title. Provide 4 realistic song options.",
       "You are a K-pop expert. Generate a trivia question about a famous K-pop song. The question should either provide translated lyrics (English or Traditional Chinese), a description of a key dance move, or a description of the MV.")
  | IDOL =>
      ("Generate a multiple choice question where the user guesses the Idol's Name. Provide 4 options (names).",
       "You are a K-pop expert. Describe a popular K-pop idol without naming them directly. Use clues like their group position, a famous nickname, a unique talent, or a specific viral moment.")
  | CARD =>
      ("Generate a question asking the user to guess the price range of a specific photocard. The options should be price ranges (e.g., '$5 - $10', '$30 - $50'). Make sure the description is detailed (e.g., 'Wonyoung Love Dive Broadcast Card').",
       "You are a K-pop photocard trading expert. Describe a specific, real K-pop photocard (Group, Member, Album/Event, Version). Estimate its market value range in USD.")
  | MENU => ("", "")
  end%string.

Definition request (mode : GameMode) : GenerateContentParameters :=
  {| model := "gemini-2.5-flash";
     contents := fst (prompts mode);
     systemInstruction := snd (prompts mode);
     responseMimeType := "application/json";
     responseSchema := getQuestionSchema;
     temperature := 1 |}.

(** [fetchGameQuestion(mode)], given what the service does with the request.
    The result is whatever [JSON.parse] returned: the cast to [Question]
    checks nothing. *)
Definition fetchGameQuestion (ai : GenAI) (mode : GameMode)
  : Completion JSValue :=
  match ai (request mode) with
  | Rejected => Throw RequestError
  | Response text =>
      match text with
      | None => Throw NoResponseFromAI
      | Some [] => Throw NoResponseFromAI
      | Some t =>
          match JSON.parse t with
          | Some v => Return v
          | None => Throw JSONSyntaxError
          end
      end
  end.

(** ** GameSession (lines 128-268) *)

(** The five [useState] cells.  [JNull] is [null], in [question] and in
    [selectedOption]. *)
Record GameSession : Type := {
  question : JSValue;
  loading : bool;
  selectedOption : JSValue;
  isCorrect : option bool;
  streak : Z
}.

Definition setQuestion (q : JSValue) (s : GameSession) : GameSession :=
  {| question := q; loading := loading s; selectedOption := selectedOption s;
     isCorrect := isCorrect s; streak := streak s |}.
Definition setLoading (b : bool) (s : GameSession) : GameSession :=
  {| question := question s; loading := b; selectedOption := selectedOption s;
     isCorrect := isCorrect s; streak := streak s |}.
Definition setSelectedOption (o : JSValue) (s : GameSession)
  : GameSession :=
  {| question := question s; loading := loading s; selectedOption := o;
     isCorrect := isCorrect s; streak := streak s |}.
Definition setIsCorrect (c : option bool) (s : GameSession) : GameSession :=
  {| question := question s; loading := loading s;
     selectedOption := selectedOption s; isCorrect := c; streak := streak s |}.
(** [setStreak] takes an updater, as in [setStreak(s => s + 1)]. *)
Definition setStreak (f : Z -> Z) (s : GameSession) : GameSession :=
  {| question := question s; loading := loading s;
     selectedOption := selectedOption s; isCorrect := isCorrect s;
     streak := f (streak s) |}.

(** The state of a freshly mounted component (lines 129-133). *)
Definition mount : GameSession :=
  {| question := JNull; loading := true; selectedOption := JNull;
     isCorrect := None; streak := 0 |}.

(** [loadQuestion] up to its [await] (lines 136-139). *)
Definition loadQuestion_begin (s : GameSession) : GameSession :=
  setIsCorrect None
    (setSelectedOption JNull (setQuestion JNull (setLoading true s))).

(** [loadQuestion] from the moment the fetch settles (lines 141-149). *)
Definition loadQuestion_settle (r : Completion JSValue) (s : GameSession)
  : GameSession :=
  match r with
  | Return q => setLoading false (setQuestion q s)
  | Throw _ => setLoading false s
  end.

(** A whole run of [loadQuestion]. *)
Definition loadQuestion (ai : GenAI) (mode : GameMode) (s : GameSession)
  : GameSession :=
  loadQuestion_settle (fetchGameQuestion ai mode) (loadQuestion_begin s).

(** [option === question?.correctAnswer]; the option is never
    [undefined]. *)
Definition is_correct_answer (option : JSValue) (q : JSValue) : bool :=
  match q with
  | JNull => false
  | _ =>
      match get_prop (js "correctAnswer") q with
      | Some c => strict_equal option c
      | None => false
      end
  end.

(** [handleAnswer(option)] (lines 156-169): the next state, and the points
    it passes to [updateScore], if it calls it.  The option is the element
    of [question.options] that was clicked, whatever value that is. *)
Definition handleAnswer (option : JSValue) (s : GameSession)
  : GameSession * list Z :=
  if truthy (selectedOption s) then (s, [])
  else
    let s1 := setSelectedOption option s in
    let correct := is_correct_answer option (question s) in
    let s2 := setIsCorrect (Some correct) s1 in
    if correct
    then (setStreak (fun n => n + 1)%Z s2, [10 + streak s * 2]%Z)
    else (setStreak (fun _ => 0%Z) s2, []).

(** What the content area shows (lines 212-264): which of the views, the
    props of [ResultView], and for each option button its letter and the
    option that its click passes to [handleAnswer].  The styling is left
    out.  [RenderError]: rendering throws, because [question.options.map] is
    not a function or because a value of the reply that is rendered as a
    child is an object. *)
Inductive Content : Type :=
| LoadingSpinner
| ResultView (correct : bool) (explanation : option JSValue)
| OptionButtons (buttons : list (jsstring * JSValue))
| LoadFailed
| RenderError.

(** The question card (lines 218-231): [question.questionText] is a child,
    and so is [question.details && ...], which is [details] itself when that
    is falsy and contains it as a child when it is truthy. *)
Definition card_ok (q : JSValue) : bool :=
  child_ok (get_prop (js "questionText") q) &&
  match get_prop (js "details") q with
  | Some d => if truthy d then renderable d else true
  | None => true
  end.

Definition render (s : GameSession) : Content :=
  if loading s then LoadingSpinner
  else if truthy (question s) then
    if card_ok (question s) then
      match isCorrect s with
      | Some c =>
          (* ResultView renders its explanation as a child (line 117) *)
          if child_ok (get_prop (js "explanation") (question s))
          then ResultView c (get_prop (js "explanation") (question s))
          else RenderError
      | None =>
          match get_prop (js "options") (question s) with
          | Some (JArray opts) =>
              (* each option is a child of its button (line 252) *)
              if forallb renderable opts then
                OptionButtons
                  (imap (fun idx option =>
                           (fromCharCode (65 + Z.of_nat idx), option))
                        opts)
              else RenderError
          | _ => RenderError
          end
      end
    else RenderError
  else LoadFailed.

(** The states of the session controller, read off what is on screen. *)
Inductive Phase : Type := Loading | Presenting | Answered | ErrorDisplay | Crashed.

Definition phase (s : GameSession) : Phase :=
  match render s with
  | LoadingSpinner => Loading
  | OptionButtons _ => Presenting
  | ResultView _ _ => Answered
  | LoadFailed => ErrorDisplay
  | RenderError => Crashed
  end.

(** ** App (lines 272-373) *)

(** [currentMode] and [score], and the state of the [GameSession] child,
    which is mounted exactly while the mode is not [MENU]. *)
Record App : Type := {
  currentMode : GameMode;
  score : Z;
  session : option GameSession
}.

Definition initial : App :=
  {| currentMode := MENU; score := 0; session := None |}.

(** [handleScoreUpdate(points)]: [setScore(s => s + points)]. *)
Definition handleScoreUpdate (points : Z) (a : App) : App :=
  {| currentMode := currentMode a; score := score a + points;
     session := session a |}.

Definition with_session (s : GameSession) (a : App) : App :=
  {| currentMode := currentMode a; score := score a; session := Some s |}.

(** A menu button: [setCurrentMode(m)].  The game view replaces the menu,
    [GameSession] is mounted and its effect starts the first load. *)
Definition selectMode (m : GameMode) (a : App) : App :=
  {| currentMode := m; score := score a;
     session := Some (loadQuestion_begin mount) |}.

(** [onBack] (the spec's goToMenu): [setCurrentMode(GAME_MODES.MENU)].  The
    menu replaces the game view; [GameSession] is unmounted and its state,
    the streak included, is dropped. *)
Definition goToMenu (a : App) : App :=
  {| currentMode := MENU; score := score a; session := None |}.

(** A click on an option button (the spec's submitAnswer):
    [handleAnswer(option)] with [updateScore = handleScoreUpdate]. *)
Definition submitAnswer (option : JSValue) (a : App) : App :=
  match session a with
  | Some s =>
      let '(s', points) := handleAnswer option s in
      fold_left (fun acc p => handleScoreUpdate p acc) points (with_session s' a)
  | None => a
  end.

(** The next and retry buttons: [loadQuestion] starts. *)
Definition startLoad (a : App) : App :=
  match session a with
  | Some s => with_session (loadQuestion_begin s) a
  | None => a
  end.

(** The pending fetch settles. *)
Definition settleLoad (ai : GenAI) (a : App) : App :=
  match session a with
  | Some s =>
      with_session
        (loadQuestion_settle (fetchGameQuestion ai (currentMode a)) s) a
  | None => a
  end.

(** What can happen next: the user clicks something that is on screen, or
    the pending request settles.  A request is pending exactly while
    [loading] is set; a request that settles after its component was
    unmounted changes nothing and is not a step.  After a render error
    nothing is on screen. *)
Inductive Event : Type :=
| ClickMode (m : GameMode)
| ClickBack
| ClickOption (idx : nat)
| ClickNext
| ClickRetry
| Settle (ai : GenAI).

Inductive step : App -> Event -> App -> Prop :=
| step_mode a m :
    currentMode a = MENU -> m <> MENU ->
    step a (ClickMode m) (selectMode m a)
| step_back a s :
    session a = Some s -> render s <> RenderError ->
    step a ClickBack (goToMenu a)
| step_option a s buttons idx label option :
    session a = Some s ->
    render s = OptionButtons buttons ->
    buttons !! idx = Some (label, option) ->
    step a (ClickOption idx) (submitAnswer option a)
| step_next a s c ex :
    session a = Some s -> render s = ResultView c ex ->
    step a ClickNext (startLoad a)
| step_retry a s :
    session a = Some s -> render s = LoadFailed ->
    step a ClickRetry (startLoad a)
| step_settle a s ai :
    session a = Some s -> loading s = true ->
    step a (Settle ai) (settleLoad ai a).

Inductive reachable : App -> Prop :=
| reachable_initial : reachable initial
| reachable_step a e a' : reachable a -> step a e a' -> reachable a'.

(** ** Inputs used in the examples *)

(** A text written with ' where JSON has its double quote. *)
Definition quoted (s : string) : jsstring :=
  List.map (fun c => if c =? 39 then 34 else c) (js s).

(** A service that answers every request with the same text. *)
Definition replying (text : jsstring) : GenAI := fun _ => Response (Some text).

Definition reply_four_options : jsstring :=
  quoted "{'questionText':'Q','options':['a','b','c','d'],'correctAnswer':'b','explanation':'E'}".

Definition reply_three_options : jsstring :=
  quoted "{'questionText':'Q','options':['a','b','c'],'correctAnswer':'d','explanation':'E'}".


Definition reply_null_option : jsstring :=
  quoted "{'questionText':'Q','options':[null,'b'],'correctAnswer':'b','explanation':'E'}".

Definition reply_number_options : jsstring :=
  quoted "{'questionText':'Q','options':[1,2],'correctAnswer':1.0,'explanation':'E'}".

Definition reply_object_explanation : jsstring :=
  quoted "{'questionText':'Q','options':['a','b'],'correctAnswer':'a','explanation':{}}".

(** The capital letters, in order. *)
Definition capital_letters : jsstring := js "ABCDEFGHIJKLMNOPQRSTUVWXYZ".

(** The invariant of the session state: without a verdict there is no
    selection. *)
Definition consistent (s : GameSession) : Prop :=
  isCorrect s = None -> selectedOption s = JNull.

(** The invariant of the reachable states of [App]: the score and the streak
    are not negative, the session is mounted exactly while the mode is not
    the menu, and the session is consistent. *)
Definition invariant (a : App) : Prop :=
  (0 <= score a)%Z /\
  (currentMode a = MENU <-> session a = None) /\
  forall s, session a = Some s -> (0 <= streak s)%Z /\ consistent s.

(** A text conforms when it is JSON for a value that conforms to the declared
    schema. *)
Definition conforming (text : jsstring) : Prop :=
  exists v, JSON.parse text = Some v /\ conforms getQuestionSchema v = true.

(** A parser result that did not run out of fuel and, if it is a value,
    consumed at least one code unit of [s]. *)
Definition within {A} (x : JSON.outcome (A * jsstring)) (s : jsstring) : Prop :=
  x <> JSON.OutOfFuel /\
  forall v r, x = JSON.Parsed (v, r) -> (length r < length s)%nat.

(** ** Example runs *)

(** Song mode is chosen and the first question arrives. *)
Definition playing (text : jsstring) : App :=
  settleLoad (replying text) (selectMode SONG initial).

(** The user answers b, the right answer of [reply_four_options]. *)
Definition answered_once : App :=
  submitAnswer (JString (js "b")) (playing reply_four_options).

(** A load that is answered with [reply_three_options]. *)
Definition unchecked_session : GameSession :=
  loadQuestion (replying reply_three_options) SONG mount.


(** With the options of [reply_null_option] on screen the user picks the
    first one, null. *)
Definition picked_null : App := submitAnswer JNull (playing reply_null_option).

(** After one right answer the user goes back to the menu and chooses song
    mode again. *)
Definition left_and_back : App := selectMode SONG (goToMenu answered_once).

(** Three questions in a row, each arriving as [reply_four_options]: the
    answers are b (right), b (right) and a (wrong). *)
Definition next_question (a : App) : App :=
  settleLoad (replying reply_four_options) (startLoad a).
Definition answered_twice : App :=
  submitAnswer (JString (js "b")) (next_question answered_once).
Definition answered_thrice : App :=
  submitAnswer (JString (js "a")) (next_question answered_twice).

(** The question that [reply_four_options] spells out. *)
Definition question_four_options : Question :=
  {| questionText := js "Q"; details := None;
     options := [js "a"; js "b"; js "c"; js "d"];
     correctAnswer := js "b"; explanation := js "E" |}.

(** The question that [reply_three_options] spells out. *)
Definition question_three_options : Question :=
  {| questionText := js "Q"; details := None;
     options := [js "a"; js "b"; js "c"];
     correctAnswer := js "d"; explanation := js "E" |}.

(** ** The rest of what is rendered (lines 109-124, 171-208, 280-373) *)

(** The icons of lucide-react that stand for a mode. *)
Inductive Icon : Type := Music | User | CreditCard.

(** [getModeTitle] (lines 171-178); the titles are Chinese text, given by
    their code units. *)
Definition getModeTitle (mode : GameMode) : jsstring :=
  match mode with
  | SONG => js "K-POP " ++ [29468; 27468]
  | IDOL => [26412; 21629; 26159; 35504]
  | CARD => [23567; 21345; 37969; 20729]
  | MENU => []
  end.

(** [getModeIcon] (lines 180-187); [None] is [null]. *)
Definition getModeIcon (mode : GameMode) : option Icon :=
  match mode with
  | SONG => Some Music
  | IDOL => Some User
  | CARD => Some CreditCard
  | MENU => None
  end.

(** The cards of the menu (lines 316-353), in order: the mode that the click
    passes to [setCurrentMode], the icon and the title. *)
Definition menuCards : list (GameMode * Icon * jsstring) :=
  [ (SONG, Music, js "K-POP " ++ [29468; 27468]);
    (IDOL, User, [29468; 20154; 36938; 25138]);
    (CARD, CreditCard, [23567; 21345; 37969; 20729]) ].

(** [ResultView] (lines 109-124): the mark in the circle, the heading and
    the explanation; its button calls [onNext]. *)
Record ResultViewOutput : Type := {
  mark : jsstring;
  heading : jsstring;
  explained : option JSValue
}.

Definition ResultView_render (correct : bool) (expl : option JSValue)
  : ResultViewOutput :=
  {| mark := if correct then [10003] else [10007];
     heading :=
       if correct
       then [31572; 23565; 20102; 65281; 22823; 30332; 65281]
       else [21710; 21568; 65292; 31572; 37679; 20102; 65281];
     explained := expl |}.

(** What [GameSession] returns (lines 189-267): the header with the title
    and the icon of the mode, the streak badge, shown when [streak > 1], and
    the content. *)
Record GameView : Type := {
  title : jsstring;
  icon : option Icon;
  badge : option Z;
  content : Content
}.

Definition GameSession_render (mode : GameMode) (s : GameSession) : GameView :=
  {| title := getModeTitle mode;
     icon := getModeIcon mode;
     badge := if (1 <? streak s)%Z then Some (streak s) else None;
     content := render s |}.

(** What [App] shows (lines 280-373): the menu with the score and the cards,
    or the game view.  An error thrown while rendering, with no error
    boundary around it, leaves the page blank. *)
Inductive Screen : Type :=
| MenuScreen (points : Z) (cards : list (GameMode * Icon * jsstring))
| GameScreen (view : GameView)
| Blank.

Definition App_render (a : App) : Screen :=
  if decide (currentMode a = MENU) then MenuScreen (score a) menuCards
  else
    let s := default mount (session a) in
    match render s with
    | RenderError => Blank
    | _ => GameScreen (GameSession_render (currentMode a) s)
    end.

(** ** Rounds of play *)

(** One round: the next question is loaded and answered with [o]. *)
Definition round (ai : GenAI) (o : JSValue) (a : App) : App :=
  submitAnswer o (settleLoad ai (startLoad a)).

Fixpoint rounds (l : list (GenAI * JSValue)) (a : App) : App :=
  match l with
  | [] => a
  | (ai, o) :: l' => rounds l' (round ai o a)
  end.

(** The round's answer is strictly equal to the [correctAnswer] of the
    question that the round's service delivers in mode [m]. *)
Definition right_answer (m : GameMode) (r : GenAI * JSValue) : Prop :=
  exists v c, fetchGameQuestion r.1 m = Return v /\
              get_prop (js "correctAnswer") v = Some c /\
              strict_equal r.2 c = true.

(** The object that spells out a question. *)
Definition Question_object (q : Question) : JSValue :=
  JObject
    ([ (js "questionText", JString (questionText q)) ] ++
     match details q with
     | Some d => [ (js "details", JString d) ]
     | None => []
     end ++
     [ (js "options", JArray (JString <$> options q));
       (js "correctAnswer", JString (correctAnswer q));
       (js "explanation", JString (explanation q)) ]).

(** What the reachable states of a session keep beyond [consistent]: while a
    request is pending there is no question, no selection and no verdict;
    and a verdict is the verdict on the selected option, one of the options
    of the question on screen, against that question. *)
Definition coherent (s : GameSession) : Prop :=
  (loading s = true ->
     question s = JNull /\ selectedOption s = JNull /\ isCorrect s = None) /\
  (forall c, isCorrect s = Some c ->
     c = is_correct_answer (selectedOption s) (question s) /\
     exists opts, get_prop (js "options") (question s) = Some (JArray opts) /\
                  selectedOption s ∈ opts).


(** A stretch of a run in which no option is clicked. *)
Inductive unanswered : App -> App -> Prop :=
| unanswered_refl a : unanswered a a
| unanswered_step a e a' a'' :
    unanswered a a' -> step a' e a'' -> (forall idx, e <> ClickOption idx) ->
    unanswered a a''.

(** Two rounds, both answered with b, the right answer of
    [reply_four_options]. *)
Definition two_right : list (GenAI * JSValue) :=
  [ (replying reply_four_options, JString (js "b"));
    (replying reply_four_options, JString (js "b")) ].


(** ** JSON.parse has fuel enough *)

Module JSON_fuel.
Import JSON.

Lemma skip_ws_length s : (length (skip_ws s) <= length s)%nat.
Proof. induction s as [|c s IH]; simpl; [done|]. destruct (is_ws c); simpl; lia. Qed.

Lemma string_chars_length s cs r :
  string_chars s = Some (cs, r) -> (length r < length s)%nat.
Proof.
  remember (length s) as n eqn:Hn. revert s cs r Hn.
  induction n as [n IH] using lt_wf_ind. intros s cs r -> H.
  destruct s as [|c s]; [discriminate|]. simpl in H.
  destruct (c =? 34); [simplify_eq; simpl; lia|].
  destruct (c =? 92).
  - destruct s as [|e s]; [discriminate|].
    destruct (e =? 117).
    + destruct s as [|h1 [|h2 [|h3 [|h4 s]]]]; try discriminate.
      destruct (hex_value h1), (hex_value h2), (hex_value h3), (hex_value h4);
        try discriminate.
      destruct (string_chars s) as [[cs' r']|] eqn:E; [|discriminate].
      simplify_eq. eapply (IH (length s)) in E; [|simpl; lia|done]. simpl; lia.
    + destruct (simple_escape e); [|discriminate].
      destruct (string_chars s) as [[cs' r']|] eqn:E; [|discriminate].
      simplify_eq. eapply (IH (length s)) in E; [|simpl; lia|done]. simpl; lia.
  - destruct (c <? 32); [discriminate|].
    destruct (string_chars s) as [[cs' r']|] eqn:E; [|discriminate].
    simplify_eq. eapply (IH (length s)) in E; [|simpl; lia|done]. simpl; lia.
Qed.

Lemma digits_length s ds r : digits s = (ds, r) -> (length r <= length s)%nat.
Proof.
  revert ds r. induction s as [|c s IH]; intros ds r H; simpl in H.
  - by simplify_eq.
  - destruct (is_digit c); [|simplify_eq; done].
    destruct (digits s) as [ds' r'] eqn:E. simplify_eq.
    specialize (IH _ _ eq_refl). simpl; lia.
Qed.

Lemma number_length neg s v r :
  number neg s = Some (v, r) -> (length r < length s)%nat.
Proof.
  unfold number. intros H.
  destruct (int_part s) as [[ip r1]|] eqn:E1; [|discriminate].
  destruct (frac_part r1) as [[fp r2]|] eqn:E2; [|discriminate].
  destruct (exp_part r2) as [[ex r3]|] eqn:E3; [|discriminate].
  simplify_eq.
  assert (length r1 < length s)%nat.
  { unfold int_part in E1. destruct s as [|c s]; [discriminate|].
    destruct (c =? 48); [simplify_eq; simpl; lia|].
    destruct (is_digit c); [|discriminate].
    destruct (digits s) as [ds r'] eqn:E. simplify_eq.
    apply digits_length in E. simpl; lia. }
  assert (length r2 <= length r1)%nat.
  { unfold frac_part in E2. destruct r1 as [|c r1]; [by simplify_eq|].
    destruct (c =? 46); [|by simplify_eq].
    destruct (digits r1) as [[|d ds] r'] eqn:E; [discriminate|].
    simplify_eq. apply digits_length in E. simpl; lia. }
  assert (length r <= length r2)%nat.
  { assert (forall b x z y, exp_digits b x = Some (z, y) ->
              (length y <= length x)%nat) as Hd.
    { intros b x z y. unfold exp_digits.
      destruct (digits x) as [[|d ds] r'] eqn:E; [discriminate|].
      intros ?; simplify_eq. by apply digits_length in E. }
    unfold exp_part in E3. destruct r2 as [|c r2]; [by simplify_eq|].
    destruct ((c =? 101) || (c =? 69)); [|by simplify_eq].
    destruct r2 as [|sg r2]; [discriminate|].
    destruct (sg =? 43); [apply Hd in E3; simpl in *; lia|].
    destruct (sg =? 45); [apply Hd in E3; simpl in *; lia|].
    apply Hd in E3; simpl in *; lia. }
  lia.
Qed.

Lemma strip_prefix_length w s r :
  strip_prefix w s = Some r -> (length r + length w = length s)%nat.
Proof.
  revert s. induction w as [|a w IH]; intros s H; simpl in H.
  - simplify_eq. simpl; lia.
  - destruct s as [|b s]; [discriminate|].
    destruct (a =? b); [|discriminate]. apply IH in H. simpl; lia.
Qed.


Lemma within_error {A} s : within (@SyntaxError (A * jsstring)) s.
Proof. by split. Qed.

Lemma within_parsed {A} (v : A) r s :
  (length r < length s)%nat -> within (Parsed (v, r)) s.
Proof. intros H. split; [done|]. by intros ? ? [= <- <-]. Qed.

Lemma within_shorter {A} (x : outcome (A * jsstring)) s s' :
  within x s -> (length s <= length s')%nat -> within x s'.
Proof.
  intros [H1 H2] Hle. split; [done|]. intros v r Hx.
  specialize (H2 v r Hx). lia.
Qed.

Lemma within_option (x : option (JSValue * jsstring)) s :
  (forall v r, x = Some (v, r) -> (length r < length s)%nat) ->
  within (of_option x) s.
Proof.
  intros H. destruct x as [[v r]|]; simpl; [|apply within_error].
  apply within_parsed. by apply (H v r).
Qed.

Lemma within_keyword w v s : w <> ""%string -> within (keyword w v s) s.
Proof.
  intros Hw. unfold keyword.
  destruct (strip_prefix (js w) s) as [rest|] eqn:E; [|apply within_error].
  apply within_parsed. apply strip_prefix_length in E.
  destruct w; [done|]. simpl in E. lia.
Qed.

(** With two units of fuel per code unit no parser runs out of fuel. *)
Lemma fuel_enough n :
  (forall s, (2 * length s + 1 <= n)%nat -> within (value n s) s) /\
  (forall s acc, (2 * length s + 2 <= n)%nat -> within (elements n s acc) s) /\
  (forall s acc, (2 * length s + 2 <= n)%nat -> within (members n s acc) s).
Proof.
  induction n as [|n (IHv & IHe & IHm)]; [split_and!; intros; lia|].
  split_and!.
  - intros [|c r] Hn; [apply within_error|]. simpl in Hn. simpl.
    pose proof (skip_ws_length r) as Hws.
    destruct (c =? 123).
    { destruct (skip_ws r) as [|c1 r1] eqn:E; [apply within_error|].
      simpl in Hws.
      destruct (c1 =? 125); [apply within_parsed; simpl; lia|].
      eapply within_shorter; [apply IHm; simpl; lia|simpl; lia]. }
    destruct (c =? 91).
    { destruct (skip_ws r) as [|c1 r1] eqn:E; [apply within_error|].
      simpl in Hws.
      destruct (c1 =? 93); [apply within_parsed; simpl; lia|].
      eapply within_shorter; [apply IHe; simpl; lia|simpl; lia]. }
    destruct (c =? 34).
    { destruct (string_chars r) as [[str rest]|] eqn:E; simpl;
        [|apply within_error].
      apply within_parsed. apply string_chars_length in E. simpl; lia. }
    destruct (c =? 45).
    { apply within_option. intros v r' H. apply number_length in H.
      simpl; lia. }
    destruct (is_digit c).
    { apply within_option. intros v r' H. by apply number_length in H. }
    destruct (c =? 116); [by apply within_keyword|].
    destruct (c =? 102); [by apply within_keyword|].
    destruct (c =? 110); [by apply within_keyword|].
    apply within_error.
  - intros s acc Hn. simpl.
    destruct (IHv s ltac:(lia)) as [Hv1 Hv2].
    destruct (value n s) as [[v r]| |] eqn:E; simpl; [|apply within_error|done].
    specialize (Hv2 v r eq_refl).
    pose proof (skip_ws_length r) as Hws.
    destruct (skip_ws r) as [|c r1] eqn:E1; [apply within_error|]. simpl in Hws.
    destruct (c =? 44).
    { pose proof (skip_ws_length r1).
      eapply within_shorter; [apply IHe; lia|lia]. }
    destruct (c =? 93); [apply within_parsed; lia|apply within_error].
  - intros [|c r] acc Hn; [apply within_error|]. simpl in Hn. simpl.
    destruct (c =? 34); [|apply within_error].
    destruct (string_chars r) as [[key r1]|] eqn:E; simpl; [|apply within_error].
    apply string_chars_length in E.
    pose proof (skip_ws_length r1) as Hws1.
    destruct (skip_ws r1) as [|c1 r2] eqn:E1; [apply within_error|].
    simpl in Hws1.
    destruct (c1 =? 58); [|apply within_error].
    pose proof (skip_ws_length r2) as Hws2.
    destruct (IHv (skip_ws r2) ltac:(lia)) as [Hv1 Hv2].
    destruct (value n (skip_ws r2)) as [[v r3]| |] eqn:E2; simpl;
      [|apply within_error|done].
    specialize (Hv2 v r3 eq_refl).
    pose proof (skip_ws_length r3) as Hws3.
    destruct (skip_ws r3) as [|c2 r4] eqn:E3; [apply within_error|].
    simpl in Hws3.
    destruct (c2 =? 44).
    { pose proof (skip_ws_length r4).
      eapply within_shorter; [apply IHm; lia|simpl; lia]. }
    destruct (c2 =? 125); [apply within_parsed; simpl; lia|apply within_error].
Qed.

(** [JSON.parse] never stops for lack of fuel. *)
Lemma document_fuel text : document (2 * length text + 1) text <> OutOfFuel.
Proof.
  unfold document.
  pose proof (skip_ws_length text) as Hws.
  destruct (proj1 (fuel_enough (2 * length text + 1)) (skip_ws text)
              ltac:(lia)) as [H _].
  destruct (value _ _) as [[v r]| |]; simpl; [|done|done].
  by destruct (skip_ws r).
Qed.

(** [JSON.parse] gives [None] only for a text that is not JSON. *)
Lemma parse_None text :
  parse text = None <->
  document (2 * length text + 1) text = SyntaxError.
Proof.
  unfold parse. pose proof (document_fuel text).
  destruct (document _ _); naive_solver.
Qed.

End JSON_fuel.

(** ** Values of the shape of a Question *)

Lemma as_strings_Some l ss : as_strings l = Some ss -> l = JString <$> ss.
Proof.
  revert ss. induction l as [|v l IH]; intros ss H; simpl in H.
  - by simplify_eq.
  - destruct v; try discriminate.
    destruct (as_strings l) as [ss'|]; [|discriminate].
    simplify_eq. csimpl. f_equal. by apply IH.
Qed.

Lemma as_strings_fmap ss : as_strings (JString <$> ss) = Some ss.
Proof. induction ss as [|s ss IH]; csimpl; [done|]. by rewrite IH. Qed.

Lemma asQuestion_object v q : asQuestion v = Some q -> exists ms, v = JObject ms.
Proof. destruct v; try discriminate. eauto. Qed.

Lemma asQuestion_truthy v q : asQuestion v = Some q -> truthy v = true.
Proof. intros [ms ->]%asQuestion_object. done. Qed.

Lemma asQuestion_options v q :
  asQuestion v = Some q ->
  get_prop (js "options") v = Some (JArray (JString <$> options q)).
Proof.
  unfold asQuestion, strings_prop. intros H.
  destruct (string_prop "questionText" v); [|discriminate].
  destruct (optional_string_prop "details" v); [|discriminate].
  destruct (get_prop (js "options") v) as [[]|]; try discriminate.
  destruct (as_strings elements) eqn:E; [|discriminate].
  apply as_strings_Some in E.
  repeat case_match; simplify_eq. done.
Qed.

Lemma asQuestion_correctAnswer v q :
  asQuestion v = Some q ->
  get_prop (js "correctAnswer") v = Some (JString (correctAnswer q)).
Proof.
  unfold asQuestion. intros H.
  destruct (string_prop "questionText" v); [|discriminate].
  destruct (optional_string_prop "details" v); [|discriminate].
  destruct (strings_prop "options" v); [|discriminate].
  unfold string_prop at 1 in H.
  destruct (get_prop (js "correctAnswer") v) as [[]|]; try discriminate.
  repeat case_match; simplify_eq. done.
Qed.

Lemma asQuestion_explanation v q :
  asQuestion v = Some q ->
  get_prop (js "explanation") v = Some (JString (explanation q)).
Proof.
  unfold asQuestion. intros H.
  destruct (string_prop "questionText" v); [|discriminate].
  destruct (optional_string_prop "details" v); [|discriminate].
  destruct (strings_prop "options" v); [|discriminate].
  destruct (string_prop "correctAnswer" v); [|discriminate].
  unfold string_prop in H.
  destruct (get_prop (js "explanation") v) as [[]|]; try discriminate.
  by simplify_eq.
Qed.

(** The text and the details of a value of the shape of a Question can be
    rendered. *)
Lemma asQuestion_card v q : asQuestion v = Some q -> card_ok v = true.
Proof.
  unfold asQuestion, string_prop, optional_string_prop, card_ok. intros H.
  destruct (get_prop (js "questionText") v) as [[]|]; try discriminate.
  destruct (get_prop (js "details") v) as [[]|]; try discriminate; simpl;
    by repeat case_match.
Qed.

Lemma renderable_strings ss : forallb renderable (JString <$> ss) = true.
Proof. by induction ss. Qed.

(** ** Strict equality *)

Lemma strict_equal_string o c :
  strict_equal o (JString c) = true <-> o = JString c.
Proof.
  destruct o; simpl; try (split; [discriminate|by intros [=]]).
  rewrite bool_decide_eq_true. naive_solver.
Qed.

Lemma strict_equal_array o l : strict_equal o (JArray l) = false.
Proof. by destruct o. Qed.

Lemma strict_equal_object o ms : strict_equal o (JObject ms) = false.
Proof. by destruct o. Qed.

Lemma is_correct_answer_prop o q :
  is_correct_answer o q =
    match get_prop (js "correctAnswer") q with
    | Some c => strict_equal o c
    | None => false
    end.
Proof. by destruct q. Qed.

Lemma is_correct_answer_Question o v q :
  asQuestion v = Some q ->
  is_correct_answer o v = true <-> o = JString (correctAnswer q).
Proof.
  intros H.
  by rewrite is_correct_answer_prop, (asQuestion_correctAnswer _ _ H),
    strict_equal_string.
Qed.

Lemma is_correct_answer_string o v q :
  asQuestion v = Some q ->
  is_correct_answer (JString o) v = bool_decide (o = correctAnswer q).
Proof.
  intros H.
  by rewrite is_correct_answer_prop, (asQuestion_correctAnswer _ _ H).
Qed.

(** ** handleAnswer *)

Lemma handleAnswer_locked o s :
  truthy (selectedOption s) = true -> handleAnswer o s = (s, []).
Proof. intros H. unfold handleAnswer. by rewrite H. Qed.

Lemma handleAnswer_right o s :
  truthy (selectedOption s) = false ->
  is_correct_answer o (question s) = true ->
  handleAnswer o s =
    ({| question := question s; loading := loading s;
        selectedOption := o; isCorrect := Some true;
        streak := streak s + 1 |}, [10 + streak s * 2]%Z).
Proof. intros H1 H2. unfold handleAnswer. by rewrite H1, H2. Qed.

Lemma handleAnswer_wrong o s :
  truthy (selectedOption s) = false ->
  is_correct_answer o (question s) = false ->
  handleAnswer o s =
    ({| question := question s; loading := loading s;
        selectedOption := o; isCorrect := Some false;
        streak := 0 |}, []).
Proof. intros H1 H2. unfold handleAnswer. by rewrite H1, H2. Qed.

Lemma handleAnswer_consistent o s :
  consistent s -> consistent (handleAnswer o s).1.
Proof.
  unfold consistent, handleAnswer. intros H.
  destruct (truthy (selectedOption s)); [done|].
  destruct (is_correct_answer _ _); simpl; discriminate.
Qed.

Lemma handleAnswer_streak o s :
  (0 <= streak s)%Z -> (0 <= streak (handleAnswer o s).1)%Z.
Proof.
  unfold handleAnswer. intros H.
  destruct (truthy (selectedOption s)); [done|].
  destruct (is_correct_answer _ _); simpl; lia.
Qed.

(** The points passed to [updateScore]: none, or one bonus of at least 10
    computed from the streak of the state the handler ran in. *)
Lemma handleAnswer_points o s :
  (handleAnswer o s).2 = [] \/ (handleAnswer o s).2 = [10 + streak s * 2]%Z.
Proof.
  unfold handleAnswer.
  destruct (truthy (selectedOption s)); [by left|].
  destruct (is_correct_answer _ _); simpl; auto.
Qed.

Lemma submitAnswer_score o a s :
  session a = Some s ->
  score (submitAnswer o a) = score a \/
  score (submitAnswer o a) = (score a + (10 + streak s * 2))%Z.
Proof.
  intros Hs. unfold submitAnswer. rewrite Hs.
  destruct (handleAnswer o s) as [s' pts] eqn:E.
  destruct (handleAnswer_points o s) as [H|H]; rewrite E in H; simpl in H;
    subst pts; simpl; auto.
Qed.

Lemma submitAnswer_session o a s :
  session a = Some s ->
  session (submitAnswer o a) = Some (handleAnswer o s).1.
Proof.
  intros Hs. unfold submitAnswer. rewrite Hs.
  destruct (handleAnswer o s) as [s' pts] eqn:E.
  destruct (handleAnswer_points o s) as [H|H]; rewrite E in H; simpl in H;
    subst pts; simpl; auto.
Qed.

Lemma submitAnswer_mode o a : currentMode (submitAnswer o a) = currentMode a.
Proof.
  unfold submitAnswer. destruct (session a) as [s|]; [|done].
  destruct (handleAnswer o s) as [s' pts] eqn:E.
  destruct (handleAnswer_points o s) as [H|H]; rewrite E in H; simpl in H;
    by subst pts.
Qed.

(** ** loadQuestion *)

Lemma loadQuestion_settle_streak r s :
  streak (loadQuestion_settle r s) = streak s.
Proof. by destruct r. Qed.

Lemma loadQuestion_settle_selection r s :
  selectedOption (loadQuestion_settle r s) = selectedOption s /\
  isCorrect (loadQuestion_settle r s) = isCorrect s.
Proof. by destruct r. Qed.

Lemma loadQuestion_streak ai mode s : streak (loadQuestion ai mode s) = streak s.
Proof. unfold loadQuestion. by rewrite loadQuestion_settle_streak. Qed.

Lemma loadQuestion_clears ai mode s :
  selectedOption (loadQuestion ai mode s) = JNull /\
  isCorrect (loadQuestion ai mode s) = None.
Proof. unfold loadQuestion. by destruct (fetchGameQuestion ai mode). Qed.

(** A load whose fetch throws ends without a question, in the error
    display. *)
Lemma loadQuestion_failed ai mode s :
  throws (fetchGameQuestion ai mode) ->
  question (loadQuestion ai mode s) = JNull /\
  loading (loadQuestion ai mode s) = false.
Proof.
  unfold loadQuestion. by destruct (fetchGameQuestion ai mode).
Qed.

(** ** What is on screen *)

Lemma phase_ErrorDisplay s :
  loading s = false -> question s = JNull -> phase s = ErrorDisplay.
Proof. intros Hl Hq. unfold phase, render. by rewrite Hl, Hq. Qed.

Lemma render_Question s q :
  loading s = false -> isCorrect s = None ->
  asQuestion (question s) = Some q ->
  render s =
    OptionButtons
      (imap (fun idx o => (fromCharCode (65 + Z.of_nat idx), JString o))
            (options q)).
Proof.
  intros Hl Hc Hq. unfold render.
  rewrite Hl, (asQuestion_truthy _ _ Hq), (asQuestion_card _ _ Hq), Hc,
    (asQuestion_options _ _ Hq), renderable_strings.
  f_equal. by rewrite imap_fmap.
Qed.

Lemma phase_Presenting s :
  phase s = Presenting ->
  loading s = false /\ truthy (question s) = true /\ isCorrect s = None.
Proof.
  unfold phase, render.
  destruct (loading s); [discriminate|].
  destruct (truthy (question s)); [|discriminate].
  destruct (isCorrect s); [by repeat case_match|]. done.
Qed.

(** While options are on screen, the question card and every option could
    be rendered. *)
Lemma phase_Presenting_options s :
  phase s = Presenting ->
  card_ok (question s) = true /\
  exists opts, get_prop (js "options") (question s) = Some (JArray opts) /\
    forallb renderable opts = true /\
    render s =
      OptionButtons
        (imap (fun idx option => (fromCharCode (65 + Z.of_nat idx), option))
              opts).
Proof.
  unfold phase, render.
  destruct (loading s); [discriminate|].
  destruct (truthy (question s)); [|discriminate].
  destruct (card_ok (question s)); [|discriminate].
  destruct (isCorrect s); [by repeat case_match|].
  destruct (get_prop (js "options") (question s)) as [[| | | |opts|]|];
    try discriminate.
  destruct (forallb renderable opts) eqn:E; [|discriminate].
  intros _. split; [done|]. by exists opts.
Qed.


(** ** The invariant of the reachable states *)

Lemma invariant_initial : invariant initial.
Proof. split_and!; [done..|]. intros s H. discriminate. Qed.

Lemma invariant_step a e a' : invariant a -> step a e a' -> invariant a'.
Proof.
  intros (Hscore & Hmenu & Hsess) Hstep.
  destruct Hstep as [a m Hm Hne | a s Hs Hr | a s bs idx lbl o Hs Hr Hb
                    | a s c ex Hs Hr | a s Hs Hr | a s ai Hs Hl].
  - split_and!; [done|done|]. intros s [= <-]. by split.
  - split_and!; [done|done|]. intros s' [=].
  - destruct (Hsess s Hs) as [Hst Hcons]. split_and!.
    + destruct (submitAnswer_score o a s Hs) as [-> | ->]; lia.
    + rewrite (submitAnswer_session o a s Hs), submitAnswer_mode.
      rewrite Hmenu, Hs. done.
    + intros s'. rewrite (submitAnswer_session o a s Hs). intros [= <-].
      split; [by apply handleAnswer_streak | by apply handleAnswer_consistent].
  - destruct (Hsess s Hs) as [Hst Hcons]. unfold startLoad. rewrite Hs.
    split_and!; [done|simpl; rewrite Hmenu, Hs; done|].
    intros s' [= <-]. by split.
  - destruct (Hsess s Hs) as [Hst Hcons]. unfold startLoad. rewrite Hs.
    split_and!; [done|simpl; rewrite Hmenu, Hs; done|].
    intros s' [= <-]. by split.
  - destruct (Hsess s Hs) as [Hst Hcons]. unfold settleLoad. rewrite Hs.
    split_and!; [done|simpl; rewrite Hmenu, Hs; done|].
    intros s' [= <-].
    split; [by rewrite loadQuestion_settle_streak|].
    unfold consistent.
    by destruct (loadQuestion_settle_selection
                   (fetchGameQuestion ai (currentMode a)) s) as [-> ->].
Qed.

Lemma reachable_invariant a : reachable a -> invariant a.
Proof.
  induction 1 as [|a e a' _ IH Hstep]; [apply invariant_initial|].
  by eapply invariant_step.
Qed.

(** While options are on screen of a reachable state, nothing is selected. *)
Lemma reachable_Presenting_unselected a s :
  reachable a -> session a = Some s -> phase s = Presenting ->
  selectedOption s = JNull.
Proof.
  intros Hr Hs Hp.
  destruct (reachable_invariant a Hr) as (_ & _ & H).
  destruct (H s Hs) as [_ Hc].
  apply Hc. by apply phase_Presenting in Hp as (_ & _ & ?).
Qed.

Lemma reachable_selectMode m : m <> MENU -> reachable (selectMode m initial).
Proof.
  intros H. eapply reachable_step; [apply reachable_initial|].
  by apply step_mode.
Qed.

Lemma reachable_playing text : reachable (playing text).
Proof.
  eapply reachable_step; [by apply (reachable_selectMode SONG)|].
  by eapply step_settle.
Qed.

Lemma step_answered_once :
  step (playing reply_four_options) (ClickOption 1) answered_once.
Proof. eapply (step_option _ _ _ 1%nat); reflexivity. Qed.

Lemma reachable_answered_once : reachable answered_once.
Proof.
  eapply reachable_step;
    [apply (reachable_playing reply_four_options)|apply step_answered_once].
Qed.

(** ** The handlers, seen from App *)

(** When the selected option is truthy, a further [handleAnswer] changes
    nothing. *)
Lemma submitAnswer_locked o a s :
  session a = Some s -> truthy (selectedOption s) = true ->
  submitAnswer o a = a.
Proof.
  intros Hs Hsel. unfold submitAnswer. rewrite Hs, handleAnswer_locked by done.
  simpl. destruct a; simpl in *. by subst.
Qed.

Lemma submitAnswer_cases o a s :
  session a = Some s ->
  (truthy (selectedOption s) = true /\ submitAnswer o a = a) \/
  (truthy (selectedOption s) = false /\
   is_correct_answer o (question s) = true /\
   submitAnswer o a =
     {| currentMode := currentMode a;
        score := score a + (10 + streak s * 2);
        session := Some {| question := question s; loading := loading s;
                           selectedOption := o; isCorrect := Some true;
                           streak := streak s + 1 |} |}) \/
  (truthy (selectedOption s) = false /\
   is_correct_answer o (question s) = false /\
   submitAnswer o a =
     {| currentMode := currentMode a;
        score := score a;
        session := Some {| question := question s; loading := loading s;
                           selectedOption := o; isCorrect := Some false;
                           streak := 0 |} |}).
Proof.
  intros Hs.
  destruct (truthy (selectedOption s)) eqn:Hsel.
  - left. split; [done|]. by eapply submitAnswer_locked.
  - right. unfold submitAnswer. rewrite Hs.
    destruct (is_correct_answer o (question s)) eqn:Hc.
    + left. rewrite handleAnswer_right by done. done.
    + right. rewrite handleAnswer_wrong by done. done.
Qed.

(** A whole load, seen from [App]. *)
Lemma load_session ai a s :
  session a = Some s ->
  settleLoad ai (startLoad a) =
    with_session (loadQuestion ai (currentMode a) s) a.
Proof. intros Hs. unfold settleLoad, startLoad. by rewrite Hs. Qed.



(** A button on screen carries the option at its index. *)
Lemma render_buttons s buttons idx label option :
  render s = OptionButtons buttons ->
  buttons !! idx = Some (label, option) ->
  phase s = Presenting /\
  exists opts, get_prop (js "options") (question s) = Some (JArray opts) /\
               opts !! idx = Some option.
Proof.
  intros Hr Hb.
  assert (phase s = Presenting) as Hp by (unfold phase; by rewrite Hr).
  split; [done|].
  destruct (phase_Presenting_options s Hp) as (_ & opts & Ho & _ & Hr').
  exists opts. split; [done|].
  rewrite Hr' in Hr. injection Hr as <-.
  rewrite list_lookup_imap in Hb.
  destruct (opts !! idx); simpl in Hb; by simplify_eq.
Qed.

Lemma reachable_coherent a s :
  reachable a -> session a = Some s -> coherent s.
Proof.
  intros Hr. revert s.
  induction Hr as [|a e a' Hr IH Hstep]; [intros s [=]|].
  destruct Hstep as [a m Hm Hne | a s Hs Hrd | a s bs idx lbl o Hs Hrd Hb
                    | a s c ex Hs Hrd | a s Hs Hrd | a s ai Hs Hl].
  - intros s [= <-]. split; [done|]. intros c [=].
  - intros s' [=].
  - intros s'.
    destruct (render_buttons s bs idx lbl o Hrd Hb) as (Hp & opts & Ho & Hi).
    pose proof (reachable_Presenting_unselected a s Hr Hs Hp) as Hsel.
    apply phase_Presenting in Hp as (Hl & _ & _).
    apply list_elem_of_lookup_2 in Hi.
    destruct (submitAnswer_cases o a s Hs)
      as [[Hlock _]|[(_ & Hc & ->)|(_ & Hc & ->)]];
      [by rewrite Hsel in Hlock|..];
      intros [= <-]; (split; simpl; [by rewrite Hl|]); intros c [= <-];
      eauto.
  - unfold startLoad. rewrite Hs. intros s' [= <-]. split; [done|].
    intros ? [=].
  - unfold startLoad. rewrite Hs. intros s' [= <-]. split; [done|].
    intros ? [=].
  - unfold settleLoad. rewrite Hs. intros s' [= <-].
    destruct (IH s Hs) as [Hload _]. destruct (Hload Hl) as (_ & _ & Hc).
    split.
    + by destruct (fetchGameQuestion ai (currentMode a)).
    + destruct (loadQuestion_settle_selection
                  (fetchGameQuestion ai (currentMode a)) s) as [_ ->].
      rewrite Hc. intros ? [=].
Qed.

(** In a reachable state the selected option of an answered question of the
    shape of a Question is one of its options. *)
Lemma reachable_selected_option a s q c :
  reachable a -> session a = Some s ->
  asQuestion (question s) = Some q -> isCorrect s = Some c ->
  exists o, selectedOption s = JString o /\ o ∈ options q.
Proof.
  intros Hr Hs Hq Hc.
  destruct (reachable_coherent a s Hr Hs) as [_ H].
  destruct (H c Hc) as (_ & opts & Ho & Hin).
  rewrite (asQuestion_options _ _ Hq) in Ho. injection Ho as <-.
  apply list_elem_of_fmap in Hin as (o & -> & Hin). eauto.
Qed.

(** ** The examples *)

(** The example replies are the questions they spell out. *)
Example reply_four_options_parsed :
  JSON.parse reply_four_options ≫= asQuestion = Some question_four_options.
Proof. reflexivity. Qed.

Example reply_three_options_parsed :
  JSON.parse reply_three_options ≫= asQuestion = Some question_three_options.
Proof. reflexivity. Qed.

(** Replies that are JSON but no question: the number 42 is stored as the
    question and rendering it throws; null is stored and shown as a failed
    load although the fetch returned. *)
Example reply_number_crashes :
  fetchGameQuestion (replying (js "42")) SONG = Return (JNumber false 42 0) /\
  phase (loadQuestion (replying (js "42")) SONG mount) = Crashed.
Proof. by split. Qed.

Example reply_null_fails :
  fetchGameQuestion (replying (js "null")) SONG = Return JNull /\
  phase (loadQuestion (replying (js "null")) SONG mount) = ErrorDisplay.
Proof. by split. Qed.

(** Replies that are objects but not of the declared shape.  Options that
    are numbers are compared as numbers: the option 1 is the correct answer
    1.0.  An explanation that is an object does not keep the options from
    being shown; the answer is scored, and rendering the result throws. *)
Example reply_number_options_right :
  render (loadQuestion (replying reply_number_options) SONG mount) =
    OptionButtons [(js "A", JNumber false 1 0); (js "B", JNumber false 2 0)] /\
  get_prop (js "correctAnswer")
    (question (loadQuestion (replying reply_number_options) SONG mount))
    = Some (JNumber false 10 (-1)) /\
  (isCorrect <$> session (submitAnswer (JNumber false 1 0)
                            (playing reply_number_options)),
   score (submitAnswer (JNumber false 1 0) (playing reply_number_options)))
  = (Some (Some true), 10%Z).
Proof. by split_and!. Qed.

Example reply_object_explanation_blank :
  phase (loadQuestion (replying reply_object_explanation) SONG mount)
    = Presenting /\
  (phase <$> session (submitAnswer (JString (js "a"))
                        (playing reply_object_explanation)),
   score (submitAnswer (JString (js "a")) (playing reply_object_explanation)),
   App_render (submitAnswer (JString (js "a"))
                 (playing reply_object_explanation)))
  = (Some Crashed, 10%Z, Blank).
Proof. by split_and!. Qed.


Lemma reachable_picked_null : reachable picked_null.
Proof.
  eapply reachable_step; [apply (reachable_playing reply_null_option)|].
  eapply (step_option _ _ _ 0%nat); reflexivity.
Qed.

Lemma unanswered_left_and_back : unanswered answered_once left_and_back.
Proof.
  eapply unanswered_step; [eapply unanswered_step; [apply unanswered_refl|..]|..].
  - eapply (step_back answered_once); [reflexivity|]. by vm_compute.
  - done.
  - by apply (step_mode (goToMenu answered_once) SONG).
  - done.
Qed.

(** ** C1: how loadQuestion ends *)

(** C1, as stated, fails: no step of [loadQuestion] counts the options or
    looks for [correctAnswer] among them.  On a reply with the three options
    a, b, c and the correct answer d, the load ends with the options on
    screen: in Presenting, not in the error display, and the question has
    neither four options nor its correct answer among them. *)
Lemma loadQuestion_unchecked_counterexample :
  ~ ((phase unchecked_session = Presenting /\
      exists q, asQuestion (question unchecked_session) = Some q /\
                length (options q) = 4%nat /\ correctAnswer q ∈ options q)
     \/ phase unchecked_session = ErrorDisplay).
Proof.
  intros [(_ & q & Hq & Hlen & _) | H].
  - vm_compute in Hq. injection Hq as <-. vm_compute in Hlen. discriminate.
  - vm_compute in H. discriminate.
Qed.

(** C1, amended: for every mode, service and prior state, [loadQuestion] ends
    with the spinner off, no selection and no verdict, and the streak as it
    was; when the fetch throws, without a question, in the error display;
    when the fetch returns, holding exactly the value it returned, and if
    that value has the shape of a Question the state is Presenting with one
    button per option, however many options there are and whether or not
    the correct answer is one of them. *)
Theorem loadQuestion_ends ai mode s :
  loading (loadQuestion ai mode s) = false /\
  selectedOption (loadQuestion ai mode s) = JNull /\
  isCorrect (loadQuestion ai mode s) = None /\
  streak (loadQuestion ai mode s) = streak s /\
  match fetchGameQuestion ai mode with
  | Throw _ =>
      question (loadQuestion ai mode s) = JNull /\
      phase (loadQuestion ai mode s) = ErrorDisplay
  | Return v =>
      question (loadQuestion ai mode s) = v /\
      forall q, asQuestion v = Some q ->
        phase (loadQuestion ai mode s) = Presenting /\
        render (loadQuestion ai mode s) =
          OptionButtons
            (imap (fun idx o => (fromCharCode (65 + Z.of_nat idx), JString o))
                  (options q))
  end.
Proof.
  unfold loadQuestion.
  destruct (fetchGameQuestion ai mode) as [v|e]; simpl.
  - split_and!; [done..|]. intros q Hq.
    assert (render (setLoading false (setQuestion v (loadQuestion_begin s))) =
            OptionButtons
              (imap (fun idx o => (fromCharCode (65 + Z.of_nat idx), JString o))
                    (options q))) as Hr by (by apply render_Question).
    split; [|done]. unfold phase. by rewrite Hr.
  - split_and!; [done..|]. by apply phase_ErrorDisplay.
Qed.

Lemma loadQuestion_ends_witness :
  phase (loadQuestion (replying reply_four_options) SONG mount) = Presenting /\
  render (loadQuestion (replying reply_four_options) SONG mount) =
    OptionButtons
      [(js "A", JString (js "a")); (js "B", JString (js "b"));
       (js "C", JString (js "c")); (js "D", JString (js "d"))].
Proof.
  pose proof (loadQuestion_ends (replying reply_four_options) SONG mount) as H.
  destruct H as (_ & _ & _ & _ & H).
  change (fetchGameQuestion (replying reply_four_options) SONG)
    with (Return (default JNull (JSON.parse reply_four_options))) in H.
  destruct H as [_ H].
  exact (H question_four_options eq_refl).
Defined.

(** ** C2: scoring an answer *)

(** C2: in a reachable state that shows the options of a question whose
    [correctAnswer] is the string [c], with streak [n], answering [c] makes
    the streak [n + 1] and adds [10 + 2 * n] to the score; answering anything
    else, a string or not, makes the streak 0 and leaves the score alone. *)
Theorem submitAnswer_scoring a s (o : JSValue) c :
  reachable a -> session a = Some s -> phase s = Presenting ->
  get_prop (js "correctAnswer") (question s) = Some (JString c) ->
  exists s', session (submitAnswer o a) = Some s' /\
    (o = JString c ->
       streak s' = (streak s + 1)%Z /\
       score (submitAnswer o a) = (score a + (10 + 2 * streak s))%Z) /\
    (o <> JString c ->
       streak s' = 0%Z /\ score (submitAnswer o a) = score a).
Proof.
  intros Hr Hs Hp Hc.
  pose proof (reachable_Presenting_unselected a s Hr Hs Hp) as Hsel.
  assert (truthy (selectedOption s) = false) as Hopen by (by rewrite Hsel).
  assert (is_correct_answer o (question s) = true <-> o = JString c)
    as Hans by (by rewrite is_correct_answer_prop, Hc, strict_equal_string).
  unfold submitAnswer. rewrite Hs.
  destruct (is_correct_answer o (question s)) eqn:E.
  - rewrite handleAnswer_right by done.
    simpl. eexists; split; [done|]. split.
    + intros _. simpl. split; lia.
    + intros Hne. by destruct Hne; apply Hans.
  - rewrite handleAnswer_wrong by done.
    simpl. eexists; split; [done|]. split; [|done].
    intros Heq. by apply Hans in Heq.
Qed.

Lemma submitAnswer_scoring_witness :
  (exists s', session (submitAnswer (JString (js "b"))
                         (playing reply_four_options)) = Some s' /\
     streak s' = 1%Z /\
     score (submitAnswer (JString (js "b")) (playing reply_four_options))
       = 10%Z) /\
  (exists s', session (submitAnswer (JString (js "a"))
                         (playing reply_four_options)) = Some s' /\
     streak s' = 0%Z /\
     score (submitAnswer (JString (js "a")) (playing reply_four_options))
       = 0%Z).
Proof.
  split.
  - destruct (submitAnswer_scoring (playing reply_four_options)
                (loadQuestion (replying reply_four_options) SONG mount)
                (JString (js "b")) (js "b")
                (reachable_playing reply_four_options) eq_refl eq_refl eq_refl)
      as (s' & Hs' & Hright & _).
    exists s'. split; [exact Hs'|]. exact (Hright eq_refl).
  - destruct (submitAnswer_scoring (playing reply_four_options)
                (loadQuestion (replying reply_four_options) SONG mount)
                (JString (js "a")) (js "b")
                (reachable_playing reply_four_options) eq_refl eq_refl eq_refl)
      as (s' & Hs' & _ & Hwrong).
    exists s'. split; [exact Hs'|].
    apply Hwrong. intros H. discriminate H.
Defined.

(** The scenario of the spec: from streak 0 a right answer gives 10 points
    and streak 1, the next right answer 12 more (22) and streak 2, a wrong
    answer then nothing and streak 0. *)
Example streak_scenario :
  (score answered_once, streak <$> session answered_once) = (10%Z, Some 1%Z) /\
  (score answered_twice, streak <$> session answered_twice) = (22%Z, Some 2%Z) /\
  (score answered_thrice, streak <$> session answered_thrice) = (22%Z, Some 0%Z).
Proof. by split_and!. Qed.

(** ** C3: answering twice *)




(** ** C4: when fetchGameQuestion fails *)

Lemma conforms_strings l :
  forallb (conforms (STRING None)) l = true <->
  exists ss, as_strings l = Some ss.
Proof.
  induction l as [|v l IH]; simpl; [naive_solver|].
  destruct v; simpl; try (split; [discriminate | by intros [ss Hss]]).
  rewrite IH. split; intros [ss H].
  - rewrite H. eauto.
  - destruct (as_strings l); [eauto | discriminate].
Qed.

(** Closes a case in which a required property is missing or a declared one
    has the wrong type. *)
Ltac conform_case :=
  try (split;
       [ rewrite ?andb_true_iff, ?bool_decide_eq_true; intros H;
         destruct_and?; try discriminate;
         by repeat match goal with
                   | H : is_Some None |- _ => destruct (is_Some_None H)
                   end
       | intros [? ?]; by repeat case_match ]).

(** The values that conform to the declared schema are those of the shape of
    a [Question]. *)
Lemma conforms_asQuestion v :
  conforms getQuestionSchema v = true <-> exists q, asQuestion v = Some q.
Proof.
  destruct v as [| | | | |members];
    try (split; [discriminate | by intros [q Hq]]).
  unfold getQuestionSchema, asQuestion, string_prop, optional_string_prop,
    strings_prop, get_prop.
  cbn [conforms forallb].
  destruct (lookup_member (js "questionText") members) as [[]|]; conform_case.
  destruct (lookup_member (js "details") members) as [[]|]; conform_case.
  all: destruct (lookup_member (js "options") members) as [[| | | |l|]|];
    conform_case.
  all: destruct (lookup_member (js "correctAnswer") members) as [[]|];
    conform_case.
  all: destruct (lookup_member (js "explanation") members) as [[]|];
    conform_case.
  all: rewrite !andb_true_iff, !bool_decide_eq_true.
  all: change (forallb _ l) with (forallb (conforms (STRING None)) l).
  all: rewrite conforms_strings.
  all: split; [intros H; destruct_and?|intros [q Hq]].
  all: try match goal with H : ex _ |- _ => destruct H as [ss ->]; by eauto end.
  all: destruct (as_strings l); [|discriminate]; split_and!; eauto.
Qed.

Lemma parse_empty : JSON.parse [] = None.
Proof. reflexivity. Qed.

(** C4, as stated, fails: the reply {} is JSON but not a question (every
    required property is missing), so by the claim the fetch should fail; yet
    [fetchGameQuestion] returns the empty object. *)
Lemma fetchGameQuestion_unvalidated_counterexample :
  ~ (throws (fetchGameQuestion (replying (js "{}")) SONG) <->
     (replying (js "{}") (request SONG) = Response None \/
      ~ conforming (js "{}"))).
Proof.
  intros [_ H]. apply H. right.
  intros (v & Hv & Hc). vm_compute in Hv. injection Hv as <-.
  vm_compute in Hc. discriminate.
Qed.

(** C4, amended: [fetchGameQuestion(mode)] throws if and only if the request
    is rejected, the response has no text, or the text is not JSON (the empty
    text included); whenever the text is JSON it returns the parsed value,
    conforming or not, and on a conforming text that value is the parsed
    Question. *)
Theorem fetchGameQuestion_fails_iff ai mode :
  (throws (fetchGameQuestion ai mode) <->
     ai (request mode) = Rejected \/
     ai (request mode) = Response None \/
     exists t, ai (request mode) = Response (Some t) /\ JSON.parse t = None) /\
  (forall t v, ai (request mode) = Response (Some t) ->
     JSON.parse t = Some v -> fetchGameQuestion ai mode = Return v) /\
  (forall t, ai (request mode) = Response (Some t) -> conforming t ->
     exists v q, fetchGameQuestion ai mode = Return v /\
                 JSON.parse t = Some v /\ asQuestion v = Some q).
Proof.
  assert (forall t v, ai (request mode) = Response (Some t) ->
            JSON.parse t = Some v -> fetchGameQuestion ai mode = Return v)
    as Hret.
  { intros t v Hai Hv. unfold fetchGameQuestion. rewrite Hai.
    destruct t as [|c t]; [by rewrite parse_empty in Hv|]. by rewrite Hv. }
  split; [|split; [exact Hret|]].
  - unfold fetchGameQuestion.
    destruct (ai (request mode)) as [|[[|c t]|]]; simpl.
    + naive_solver.
    + split; [|done]. intros _. right; right. by exists [].
    + destruct (JSON.parse (c :: t)) eqn:E; simpl.
      * split; [done|]. intros [?|[?|(t' & ? & ?)]]; by simplify_eq.
      * split; [|done]. intros _. right; right. by exists (c :: t).
    + naive_solver.
  - intros t Hai (v & Hv & Hc).
    apply conforms_asQuestion in Hc as [q Hq].
    exists v, q. split_and!; [by eapply Hret|done..].
Qed.

Lemma fetchGameQuestion_fails_iff_witness :
  fetchGameQuestion (replying reply_four_options) SONG =
    Return (default JNull (JSON.parse reply_four_options)) /\
  throws (fetchGameQuestion (replying (js "not json")) IDOL) /\
  exists v q, fetchGameQuestion (replying reply_four_options) CARD = Return v /\
              JSON.parse reply_four_options = Some v /\
              asQuestion v = Some q.
Proof.
  split; [|split].
  - exact (proj1 (proj2 (fetchGameQuestion_fails_iff
                           (replying reply_four_options) SONG))
             reply_four_options _ eq_refl eq_refl).
  - apply (proj1 (fetchGameQuestion_fails_iff (replying (js "not json")) IDOL)).
    right; right. exists (js "not json"). split; reflexivity.
  - exact (proj2 (proj2 (fetchGameQuestion_fails_iff
                           (replying reply_four_options) CARD))
             reply_four_options eq_refl
             (ex_intro _ (default JNull (JSON.parse reply_four_options))
                (conj eq_refl eq_refl))).
Defined.

(** ** C5: selection and verdict *)

(** C5, as stated, fails: an option is whatever value the reply has in its
    [options], and null is the value of [selectedOption] that stands for
    no selection.  The reply has the options null and b; the user picks the
    first: the verdict is present (false) and the selection is null. *)
Lemma null_option_counterexample :
  ~ (forall a s, reachable a -> session a = Some s ->
       (selectedOption s = JNull /\ isCorrect s = None) \/
       (selectedOption s <> JNull /\ isCorrect s <> None)).
Proof.
  intros H.
  destruct (H picked_null _ reachable_picked_null eq_refl)
    as [[_ Hc]|[Hsel _]].
  - vm_compute in Hc. discriminate.
  - by apply Hsel.
Qed.

(** C5, amended: in every reachable state, without a verdict there is no
    selection, and with a verdict the selection is the option that was
    clicked, one of the options of the question on screen; so when the
    question has the shape of a Question (its options are strings) the two
    are both absent or both present.  Every run of [loadQuestion] clears
    both, from its first step on. *)
Theorem selection_follows_verdict :
  (forall a s, reachable a -> session a = Some s ->
     (isCorrect s = None -> selectedOption s = JNull) /\
     (forall c, isCorrect s = Some c ->
        exists opts,
          get_prop (js "options") (question s) = Some (JArray opts) /\
          selectedOption s ∈ opts) /\
     (forall q, asQuestion (question s) = Some q ->
        (selectedOption s = JNull /\ isCorrect s = None) \/
        (exists o c, selectedOption s = JString o /\ isCorrect s = Some c))) /\
  (forall s, selectedOption (loadQuestion_begin s) = JNull /\
             isCorrect (loadQuestion_begin s) = None) /\
  (forall ai mode s, selectedOption (loadQuestion ai mode s) = JNull /\
                     isCorrect (loadQuestion ai mode s) = None).
Proof.
  split; [|split; [done|apply loadQuestion_clears]].
  intros a s Hr Hs.
  destruct (reachable_invariant a Hr) as (_ & _ & H).
  destruct (H s Hs) as [_ Hcons].
  destruct (reachable_coherent a s Hr Hs) as [_ Hcoh].
  split_and!; [done| |].
  - intros c Hc. by destruct (Hcoh c Hc) as [_ ?].
  - intros q Hq. destruct (isCorrect s) as [c|] eqn:Hc.
    + right.
      destruct (reachable_selected_option a s q c Hr Hs Hq Hc) as (o & Ho & _).
      eauto.
    + left. split; [by apply Hcons|done].
Qed.

Lemma selection_follows_verdict_witness :
  (exists opts,
     get_prop (js "options") (question (default mount (session picked_null)))
       = Some (JArray opts) /\
     selectedOption (default mount (session picked_null)) ∈ opts) /\
  ((selectedOption (default mount (session answered_once)) = JNull /\
    isCorrect (default mount (session answered_once)) = None) \/
   (exists o c,
      selectedOption (default mount (session answered_once)) = JString o /\
      isCorrect (default mount (session answered_once)) = Some c)).
Proof.
  split.
  - exact (proj1 (proj2 (proj1 selection_follows_verdict picked_null _
                           reachable_picked_null eq_refl)) false eq_refl).
  - exact (proj2 (proj2 (proj1 selection_follows_verdict answered_once _
                           reachable_answered_once eq_refl))
             question_four_options eq_refl).
Defined.

(** ** C6 and C7: what a load and a return to the menu leave alone *)

(** C6, as stated, fails in its second half: the streak is also changed
    without any answer.  After one right answer the streak is 1; the user
    goes back to the menu and chooses song mode again, no option is clicked
    on the way, and the streak is 0. *)
Lemma streak_dropped_counterexample :
  ~ (forall a a' s s', reachable a -> unanswered a a' ->
       session a = Some s -> session a' = Some s' ->
       score a' = score a /\ streak s' = streak s).
Proof.
  intros H.
  destruct (H answered_once left_and_back _ _ reachable_answered_once
              unanswered_left_and_back eq_refl eq_refl) as [_ Hst].
  vm_compute in Hst. discriminate.
Qed.

Lemma step_unanswered a e a' :
  reachable a -> step a e a' -> (forall idx, e <> ClickOption idx) ->
  score a' = score a /\
  match session a, session a' with
  | Some s, Some s' => streak s' = streak s
  | None, Some s' => streak s' = 0%Z /\ exists m, e = ClickMode m
  | Some _, None => e = ClickBack
  | None, None => False
  end.
Proof.
  intros Hr Hstep He.
  destruct (reachable_invariant a Hr) as (_ & Hmenu & _).
  destruct Hstep as [a m Hm Hne | a s Hs Hrd | a s bs idx lbl o Hs Hrd Hb
                    | a s c ex Hs Hrd | a s Hs Hrd | a s ai Hs Hl].
  - split; [done|]. apply Hmenu in Hm. rewrite Hm. simpl. eauto.
  - split; [done|]. simpl. by rewrite Hs.
  - by destruct (He idx).
  - unfold startLoad. by rewrite Hs.
  - unfold startLoad. by rewrite Hs.
  - unfold settleLoad. rewrite Hs. split; [done|].
    apply loadQuestion_settle_streak.
Qed.

(** C6, amended: a load whose fetch throws leaves the score and the streak
    as they were and ends in the error display.  The score is changed only
    by the click on an option.  The streak is changed only by the click on
    an option or by leaving the session: a step that is not such a click
    keeps the streak of the mounted session, or is the back button, which
    drops the session and its streak, or is a menu card, which mounts a
    session with streak 0; so over a stretch of a run without an answer the
    score is the same and the streak is the same or 0. *)
Theorem failed_load_keeps_score_and_streak :
  (forall ai a s, session a = Some s ->
     throws (fetchGameQuestion ai (currentMode a)) ->
     score (settleLoad ai (startLoad a)) = score a /\
     exists s', session (settleLoad ai (startLoad a)) = Some s' /\
                streak s' = streak s /\ phase s' = ErrorDisplay) /\
  (forall a e a', reachable a -> step a e a' ->
     (forall idx, e <> ClickOption idx) ->
     score a' = score a /\
     match session a, session a' with
     | Some s, Some s' => streak s' = streak s
     | None, Some s' => streak s' = 0%Z /\ exists m, e = ClickMode m
     | Some _, None => e = ClickBack
     | None, None => False
     end) /\
  (forall a a', reachable a -> unanswered a a' ->
     score a' = score a /\
     forall s s', session a = Some s -> session a' = Some s' ->
       streak s' = streak s \/ streak s' = 0%Z).
Proof.
  split_and!.
  - intros ai a s Hs Hthrow. rewrite (load_session ai a s Hs). simpl.
    split; [done|]. eexists; split; [done|].
    split; [apply loadQuestion_streak|].
    destruct (loadQuestion_failed ai (currentMode a) s Hthrow) as [Hq Hl].
    by apply phase_ErrorDisplay.
  - apply step_unanswered.
  - intros a a' Hr Hun.
    assert (reachable a' /\ score a' = score a /\
            forall s', session a' = Some s' ->
              (forall s, session a = Some s -> streak s' = streak s) \/
              streak s' = 0%Z) as (_ & Hsc & Hst).
    { induction Hun as [a|a e a' a'' Hun IH Hstep He].
      - split_and!; [done|done|]. intros s' Hs'. left. intros s Hs.
        by simplify_eq.
      - destruct (IH Hr) as (Hr' & Hsc & Hst).
        destruct (step_unanswered a' e a'' Hr' Hstep He) as [Hsc' H].
        split_and!; [by eapply reachable_step|congruence|].
        intros s'' Hs''. rewrite Hs'' in H.
        destruct (session a') as [s'|] eqn:Hs'.
        + destruct (Hst s' eq_refl) as [Hk|H0].
          * left. intros s Hs. rewrite H. by apply Hk.
          * right. congruence.
        + right. by destruct H. }
    split; [done|]. intros s s' Hs Hs'.
    destruct (Hst s' Hs') as [H|H]; [left; by apply H|by right].
Qed.

Lemma failed_load_keeps_score_and_streak_witness :
  (score (settleLoad (fun _ => Rejected) (startLoad answered_once)) = 10%Z /\
   exists s', session (settleLoad (fun _ => Rejected) (startLoad answered_once))
                = Some s' /\
              streak s' = 1%Z /\ phase s' = ErrorDisplay) /\
  (score (startLoad answered_once) = 10%Z /\
   streak <$> session (startLoad answered_once) = Some 1%Z) /\
  score left_and_back = 10%Z.
Proof.
  split; [|split].
  - exact (proj1 failed_load_keeps_score_and_streak (fun _ => Rejected)
             answered_once _ eq_refl I).
  - assert (step answered_once ClickNext (startLoad answered_once)) as Hstep
      by (eapply step_next; reflexivity).
    destruct (proj1 (proj2 failed_load_keeps_score_and_streak)
                answered_once ClickNext (startLoad answered_once)
                reachable_answered_once Hstep
                (fun idx H => eq_ind ClickNext
                   (fun e => match e with ClickNext => True | _ => False end)
                   I _ H)) as [Hscore Hstreak].
    split; [exact Hscore|]. exact (f_equal Some Hstreak).
  - exact (proj1 (proj2 (proj2 failed_load_keeps_score_and_streak)
                    answered_once left_and_back reachable_answered_once
                    unanswered_left_and_back)).
Defined.

(** C7: loading the next question, whatever comes back, leaves the score and
    the streak as they were; going back to the menu drops the session (the
    question with it) and sets the mode to the menu, and leaves the score as
    it was. *)
Theorem score_and_streak_persist :
  (forall ai a s, session a = Some s ->
     score (settleLoad ai (startLoad a)) = score a /\
     exists s', session (settleLoad ai (startLoad a)) = Some s' /\
                streak s' = streak s) /\
  (forall a, score (goToMenu a) = score a /\
             currentMode (goToMenu a) = MENU /\
             session (goToMenu a) = None).
Proof.
  split; [|done].
  intros ai a s Hs. rewrite (load_session ai a s Hs). simpl.
  split; [done|]. eexists; split; [done|]. apply loadQuestion_streak.
Qed.

Lemma score_and_streak_persist_witness :
  score (settleLoad (replying reply_three_options) (startLoad answered_once))
    = 10%Z /\
  exists s', session (settleLoad (replying reply_three_options)
                        (startLoad answered_once)) = Some s' /\
             streak s' = 1%Z.
Proof.
  exact (proj1 score_and_streak_persist (replying reply_three_options)
           answered_once _ eq_refl).
Defined.

(** ** C8: a question without its correct answer among the options *)



(** ** C9: the option buttons *)

(** C9: while a question is on screen, there is one button per option, in
    the order of the question's list; the button at index [i] carries the
    option at index [i] and the label [String.fromCharCode(65 + i)], which is
    the [i]-th capital letter (A at 0, B at 1, ...) for as long as there is
    one; the label does not depend on the option. *)
Theorem option_buttons_positional s q :
  phase s = Presenting -> asQuestion (question s) = Some q ->
  exists buttons,
    render s = OptionButtons buttons /\
    buttons.*2 = JString <$> options q /\
    forall (i : nat) o, options q !! i = Some o ->
      buttons !! i = Some (fromCharCode (65 + Z.of_nat i), JString o) /\
      forall c, capital_letters !! i = Some c ->
                fromCharCode (65 + Z.of_nat i) = [c].
Proof.
  intros Hp Hq. apply phase_Presenting in Hp as (Hl & _ & Hc).
  eexists. split; [by apply render_Question|]. split.
  - generalize (options q). intros l.
    assert (forall n,
      (imap (fun idx o => (fromCharCode (65 + Z.of_nat (n + idx)), JString o)) l).*2
      = JString <$> l) as H.
    { induction l as [|x l IH]; intros n; [done|].
      csimpl. f_equal. rewrite <- (IH (S n)). f_equal.
      apply imap_ext. intros i y _. simpl. repeat f_equal. lia. }
    apply (H 0%nat).
  - intros i o Ho. split.
    + rewrite list_lookup_imap, Ho. done.
    + intros c Hi.
      do 26 (destruct i as [|i]; [vm_compute in Hi; by injection Hi as <-|]).
      vm_compute in Hi. discriminate.
Qed.

Lemma option_buttons_positional_witness :
  exists buttons,
    render (loadQuestion (replying reply_four_options) SONG mount)
      = OptionButtons buttons /\
    buttons !! 1%nat = Some (fromCharCode 66, JString (js "b")) /\
    fromCharCode 66 = js "B".
Proof.
  destruct (option_buttons_positional
              (loadQuestion (replying reply_four_options) SONG mount)
              question_four_options eq_refl eq_refl)
    as (buttons & Hr & _ & H).
  exists buttons. split; [exact Hr|].
  destruct (H 1%nat (js "b") eq_refl) as [Hb Hl].
  split; [exact Hb|]. exact (Hl 66 eq_refl).
Defined.

(** ** C10: the score never goes down, the streak never below zero *)

(** C10: the score starts at 0; in every reachable state the score and the
    streak are at least 0; every step leaves the score as it was or adds
    [10 + 2 * streak], which is at least 10, and so never lowers it. *)
Theorem score_never_decreases :
  score initial = 0%Z /\
  (forall a, reachable a ->
     (0 <= score a)%Z /\
     forall s, session a = Some s -> (0 <= streak s)%Z) /\
  (forall a e a', reachable a -> step a e a' ->
     (score a <= score a')%Z /\
     (score a' = score a \/
      exists s, session a = Some s /\
                score a' = (score a + (10 + 2 * streak s))%Z /\
                (score a + 10 <= score a')%Z)).
Proof.
  split; [done|]. split.
  - intros a Hr. destruct (reachable_invariant a Hr) as (H0 & _ & H).
    split; [done|]. intros s Hs. by destruct (H s Hs).
  - intros a e a' Hr Hstep.
    destruct (reachable_invariant a Hr) as (_ & _ & Hinv).
    destruct Hstep as [a m Hm Hne | a s Hs Hrd | a s bs idx lbl o Hs Hrd Hb
                      | a s c ex Hs Hrd | a s Hs Hrd | a s ai Hs Hl].
    + simpl. split; [lia|by left].
    + simpl. split; [lia|by left].
    + destruct (Hinv s Hs) as [Hst _].
      destruct (submitAnswer_score o a s Hs) as [-> | ->].
      * split; [lia|by left].
      * split; [lia|]. right. exists s. split; [done|]. split; lia.
    + unfold startLoad. rewrite Hs. simpl. split; [lia|by left].
    + unfold startLoad. rewrite Hs. simpl. split; [lia|by left].
    + unfold settleLoad. rewrite Hs. simpl. split; [lia|by left].
Qed.

Lemma score_never_decreases_witness :
  (0 <= score answered_once)%Z /\
  (score (playing reply_four_options) <= score answered_once)%Z.
Proof.
  split.
  - exact (proj1 (proj1 (proj2 score_never_decreases) answered_once
                    reachable_answered_once)).
  - exact (proj1 (proj2 (proj2 score_never_decreases) _ _ _
                    (reachable_playing reply_four_options)
                    step_answered_once)).
Defined.

(** ** X1: the score against the streak *)

Lemma reachable_score_streak a :
  reachable a ->
  Z.even (score a) = true /\
  forall s, session a = Some s ->
    (streak s * streak s + 9 * streak s <= score a)%Z.
Proof.
  induction 1 as [|a e a' Hr [IHe IHs] Hstep]; [by split; [|intros s [=]]|].
  destruct (reachable_invariant a Hr) as (Hscore & _ & Hinv).
  destruct Hstep as [a m Hm Hne | a s Hs Hrd | a s bs idx lbl o Hs Hrd Hb
                    | a s c ex Hs Hrd | a s Hs Hrd | a s ai Hs Hl].
  - split; [done|]. intros s [= <-]. simpl. lia.
  - split; [done|]. intros s' [=].
  - specialize (IHs s Hs). destruct (Hinv s Hs) as [Hst _].
    destruct (submitAnswer_cases o a s Hs)
      as [[_ ->]|[(_ & _ & ->)|(_ & _ & ->)]]; simpl.
    + split; [done|]. intros s' Hs'. rewrite Hs in Hs'. by simplify_eq.
    + split.
      * by rewrite Z.even_add, IHe, Z.even_add, Z.even_mul, orb_true_r.
      * intros s' [= <-]. simpl. lia.
    + split; [done|]. intros s' [= <-]. simpl. lia.
  - unfold startLoad. rewrite Hs. simpl. split; [done|].
    intros s' [= <-]. exact (IHs s Hs).
  - unfold startLoad. rewrite Hs. simpl. split; [done|].
    intros s' [= <-]. exact (IHs s Hs).
  - unfold settleLoad. rewrite Hs. simpl. split; [done|]. intros s' [= <-].
    rewrite loadQuestion_settle_streak. exact (IHs s Hs).
Qed.

(** X1: in every reachable state the score is even, and with streak [n] it
    is at least [n * n + 9 * n], the sum of the bonuses 10, 12, ... of the
    [n] right answers in a row that built the streak. *)
Theorem score_dominates_streak a :
  reachable a ->
  Z.even (score a) = true /\
  forall s, session a = Some s ->
    (streak s * streak s + 9 * streak s <= score a)%Z.
Proof. apply reachable_score_streak. Qed.

Lemma score_dominates_streak_witness :
  Z.even (score answered_once) = true /\
  (1 * 1 + 9 * 1 <= score answered_once)%Z.
Proof.
  destruct (score_dominates_streak answered_once reachable_answered_once)
    as [He Hd].
  split; [exact He|]. exact (Hd _ eq_refl).
Defined.

(** ** X2 and X3: rounds of play *)

Lemma round_cases ai o a s :
  session a = Some s ->
  currentMode (round ai o a) = currentMode a /\
  exists s', session (round ai o a) = Some s' /\
    ((is_correct_answer o (question (loadQuestion ai (currentMode a) s)) = true /\
      streak s' = (streak s + 1)%Z /\
      score (round ai o a) = (score a + (10 + 2 * streak s))%Z) \/
     (is_correct_answer o (question (loadQuestion ai (currentMode a) s)) = false /\
      streak s' = 0%Z /\ score (round ai o a) = score a)).
Proof.
  intros Hs. unfold round. rewrite (load_session ai a s Hs).
  pose proof (loadQuestion_clears ai (currentMode a) s) as [Hsel _].
  pose proof (loadQuestion_streak ai (currentMode a) s) as Hst.
  destruct (submitAnswer_cases o
              (with_session (loadQuestion ai (currentMode a) s) a)
              (loadQuestion ai (currentMode a) s) eq_refl)
    as [[Hl _]|[(_ & Hc & ->)|(_ & Hc & ->)]]; simpl.
  - by rewrite Hsel in Hl.
  - split; [done|]. eexists. split; [done|]. left. simpl. rewrite Hst.
    split_and!; [done|done|lia].
  - split; [done|]. eexists. split; [done|]. right. simpl. by split_and!.
Qed.

Lemma right_answer_correct m ai o s :
  right_answer m (ai, o) ->
  is_correct_answer o (question (loadQuestion ai m s)) = true.
Proof.
  intros (v & c & Hv & Hc & He). simpl in *. unfold loadQuestion.
  rewrite Hv. simpl. by rewrite is_correct_answer_prop, Hc.
Qed.

Lemma right_answer_four m :
  right_answer m (replying reply_four_options, JString (js "b")).
Proof.
  exists (default JNull (JSON.parse reply_four_options)), (JString (js "b")).
  by split_and!.
Qed.

(** X2: [n] rounds in a row, each answered with a value strictly equal to
    the [correctAnswer] of the question that arrived, take the streak from [k] to [k + n] and add
    [n * (10 + 2 * k) + n * (n - 1)] to the score. *)
Theorem rounds_all_right l a s :
  session a = Some s ->
  Forall (right_answer (currentMode a)) l ->
  exists s', session (rounds l a) = Some s' /\
    streak s' = (streak s + Z.of_nat (length l))%Z /\
    score (rounds l a) =
      (score a + Z.of_nat (length l) * (10 + 2 * streak s)
       + Z.of_nat (length l) * (Z.of_nat (length l) - 1))%Z.
Proof.
  revert a s. induction l as [|[ai o] l IH]; intros a s Hs Hall.
  - exists s. simpl. split_and!; [done|lia|lia].
  - apply Forall_cons_1 in Hall as [Hr Hall].
    destruct (round_cases ai o a s Hs) as (Hm & s1 & Hs1 & Hcase).
    rewrite (right_answer_correct _ _ _ s Hr) in Hcase.
    destruct Hcase as [(_ & Hst & Hsc)|(? & _)]; [|done].
    rewrite <- Hm in Hall.
    destruct (IH _ _ Hs1 Hall) as (s' & Hs' & Hst' & Hsc').
    exists s'. simpl. split; [done|]. rewrite Hst', Hsc', Hst, Hsc.
    split; [lia|nia].
Qed.

Lemma rounds_all_right_witness :
  exists s', session (rounds two_right (playing reply_four_options)) = Some s' /\
    streak s' = 2%Z /\
    score (rounds two_right (playing reply_four_options)) = 22%Z.
Proof.
  destruct (rounds_all_right two_right (playing reply_four_options) _ eq_refl
              (Forall_cons _ _ _ (right_answer_four SONG)
                 (Forall_cons _ _ _ (right_answer_four SONG) (Forall_nil _))))
    as (s' & Hs & Hst & Hsc).
  exists s'. split; [exact Hs|]. split; [exact Hst|exact Hsc].
Defined.

(** X3: whatever arrives and whatever is answered in [n] rounds, starting
    from a streak [k] that is not negative, the streak stays between 0 and
    [k + n] and the score never goes down and gains at most what [n] right
    answers in a row give, [n * (10 + 2 * k) + n * (n - 1)]. *)
Theorem rounds_bound l a s :
  session a = Some s -> (0 <= streak s)%Z ->
  exists s', session (rounds l a) = Some s' /\
    (0 <= streak s' <= streak s + Z.of_nat (length l))%Z /\
    (score a <= score (rounds l a) <=
       score a + Z.of_nat (length l) * (10 + 2 * streak s)
       + Z.of_nat (length l) * (Z.of_nat (length l) - 1))%Z.
Proof.
  revert a s. induction l as [|[ai o] l IH]; intros a s Hs H0.
  - exists s. simpl. split_and!; [done|lia..].
  - destruct (round_cases ai o a s Hs) as (Hm & s1 & Hs1 & Hcase).
    assert (0 <= streak s1 <= streak s + 1)%Z as Hst1
      by (destruct Hcase as [(_ & -> & _)|(_ & -> & _)]; lia).
    assert (score a <= score (round ai o a) <= score a + (10 + 2 * streak s))%Z
      as Hsc1 by (destruct Hcase as [(_ & _ & ->)|(_ & _ & ->)]; lia).
    destruct (IH _ _ Hs1 (proj1 Hst1)) as (s' & Hs' & Hst' & Hsc').
    exists s'. simpl. split; [done|].
    split; [lia|]. split; [lia|]. nia.
Qed.

Lemma rounds_bound_witness :
  exists s', session (rounds two_right (playing reply_three_options)) = Some s' /\
    (0 <= streak s' <= 2)%Z /\
    (0 <= score (rounds two_right (playing reply_three_options)) <= 22)%Z.
Proof.
  destruct (rounds_bound two_right (playing reply_three_options) _ eq_refl
              (Z.le_refl 0))
    as (s' & Hs & Hst & Hsc).
  exists s'. split; [exact Hs|]. split; [exact Hst|exact Hsc].
Defined.

(** ** X4: the streak badge *)





(** ** X5: back to the menu and into a mode again *)

(** X5: going back to the menu and choosing a mode keeps the score and
    starts a session that is loading, has no question and has streak 0; so
    the first right answer after that earns exactly 10, whatever the streak
    was before. *)
Theorem reenter_resets_streak a m ai o :
  right_answer m (ai, o) ->
  score (selectMode m (goToMenu a)) = score a /\
  (exists s1, session (selectMode m (goToMenu a)) = Some s1 /\
              streak s1 = 0%Z /\ question s1 = JNull /\ phase s1 = Loading) /\
  score (submitAnswer o (settleLoad ai (selectMode m (goToMenu a))))
    = (score a + 10)%Z.
Proof.
  intros Hright. split; [done|]. split; [by eexists|].
  pose proof (right_answer_correct m ai o mount Hright) as Hc.
  destruct (submitAnswer_cases o (settleLoad ai (selectMode m (goToMenu a)))
              (loadQuestion ai m mount) eq_refl)
    as [[Hlock _]|[(_ & _ & ->)|(_ & Hw & _)]].
  - by rewrite (proj1 (loadQuestion_clears ai m mount)) in Hlock.
  - simpl. rewrite loadQuestion_streak. simpl. lia.
  - by rewrite Hc in Hw.
Qed.

Lemma reenter_resets_streak_witness :
  score (submitAnswer (JString (js "b"))
           (settleLoad (replying reply_four_options)
              (selectMode IDOL (goToMenu answered_once)))) = 20%Z.
Proof.
  exact (proj2 (proj2 (reenter_resets_streak answered_once IDOL
                         (replying reply_four_options) (JString (js "b"))
                         (right_answer_four IDOL)))).
Defined.

(** ** X6 and X8: the session controller *)





(** X8: in every reachable state, while a request is pending there is no
    question, no selection and no verdict; and a verdict on screen is the
    verdict on the selected option, whatever value that is:
    [selectedOption === correctAnswer] of the question that is on screen,
    of whose options the selected one is one. *)
Theorem verdict_matches_selection a s :
  reachable a -> session a = Some s ->
  (loading s = true ->
     question s = JNull /\ selectedOption s = JNull /\ isCorrect s = None) /\
  (forall c, isCorrect s = Some c ->
     c = is_correct_answer (selectedOption s) (question s) /\
     exists opts, get_prop (js "options") (question s) = Some (JArray opts) /\
                  selectedOption s ∈ opts).
Proof. apply reachable_coherent. Qed.

Lemma verdict_matches_selection_witness :
  false = is_correct_answer
            (selectedOption (default mount (session picked_null)))
            (question (default mount (session picked_null))) /\
  exists opts,
    get_prop (js "options") (question (default mount (session picked_null)))
      = Some (JArray opts) /\
    selectedOption (default mount (session picked_null)) ∈ opts.
Proof.
  exact (proj2 (verdict_matches_selection picked_null _
                  reachable_picked_null eq_refl) false eq_refl).
Defined.

(** ** X7: what the user sees after answering *)

(** X7: when the user answers a question that is on screen (of the shape of
    a Question, so that its options are strings), the options give way to
    the result view: it has the check mark and the congratulation exactly
    when the answer is the question's [correctAnswer], the cross and the
    regret otherwise, and the question's explanation; and no option can be
    clicked any more. *)
Theorem answer_feedback a s q o :
  reachable a -> session a = Some s -> phase s = Presenting ->
  asQuestion (question s) = Some q ->
  exists s', session (submitAnswer (JString o) a) = Some s' /\
    render s' =
      ResultView (bool_decide (o = correctAnswer q))
                 (Some (JString (explanation q))) /\
    ResultView_render (bool_decide (o = correctAnswer q))
                      (Some (JString (explanation q))) =
      {| mark := if decide (o = correctAnswer q) then [10003] else [10007];
         heading :=
           if decide (o = correctAnswer q)
           then [31572; 23565; 20102; 65281; 22823; 30332; 65281]
           else [21710; 21568; 65292; 31572; 37679; 20102; 65281];
         explained := Some (JString (explanation q)) |} /\
    forall idx a'',
      ~ step (submitAnswer (JString o) a) (ClickOption idx) a''.
Proof.
  intros Hr Hs Hp Hq.
  pose proof (reachable_Presenting_unselected a s Hr Hs Hp) as Hsel.
  pose proof Hp as (Hl & Ht & _)%phase_Presenting.
  pose proof (asQuestion_card _ _ Hq) as Hcard.
  pose proof (is_correct_answer_string o _ q Hq) as Hans.
  pose proof (asQuestion_explanation _ _ Hq) as Hex.
  assert (exists s', session (submitAnswer (JString o) a) = Some s' /\
            render s' = ResultView (bool_decide (o = correctAnswer q))
                          (Some (JString (explanation q)))) as (s' & Hs' & Hr').
  { destruct (submitAnswer_cases (JString o) a s Hs)
      as [[Hlock _]|[(_ & Hc & ->)|(_ & Hc & ->)]];
      [by rewrite Hsel in Hlock|..];
      (eexists; split; [done|]); unfold render; simpl;
      by rewrite Hl, Ht, Hcard, Hex, <- Hans, Hc. }
  exists s'. split_and!; [done|done| |].
  - unfold ResultView_render. by case_bool_decide; case_decide.
  - intros idx a'' Hstep. inversion Hstep as [| |? s2 ? ? ? ? Hs2 Hr2 _| | |].
    rewrite Hs' in Hs2. simplify_eq. by rewrite Hr' in Hr2.
Qed.

Lemma answer_feedback_witness :
  exists s', session (submitAnswer (JString (js "a"))
                        (playing reply_four_options)) = Some s' /\
    render s' = ResultView false (Some (JString (js "E"))) /\
    mark (ResultView_render false (Some (JString (js "E")))) = [10007].
Proof.
  destruct (answer_feedback (playing reply_four_options) _
              question_four_options (js "a")
              (reachable_playing _) eq_refl eq_refl eq_refl)
    as (s' & Hs & Hr & Hv & _).
  exists s'. split; [exact Hs|]. split; [exact Hr|].
  exact (f_equal mark Hv).
Defined.

(** ** X9: how a load ends *)

(** X9: the phase in which [loadQuestion] ends is decided by what the fetch
    delivers: a thrown error or a falsy value (null, false, 0, the empty
    string) gives the error display; a truthy value gives Presenting when
    its [options] is an array and its text, its details and each of its
    options can be rendered as a child (none is an object or has one inside
    an array); any other truthy value makes rendering throw. *)
Theorem loadQuestion_end_phase ai mode s :
  phase (loadQuestion ai mode s) =
    match fetchGameQuestion ai mode with
    | Throw _ => ErrorDisplay
    | Return v =>
        if truthy v then
          match get_prop (js "options") v with
          | Some (JArray opts) =>
              if child_ok (get_prop (js "questionText") v)
                 && match get_prop (js "details") v with
                    | Some d => negb (truthy d) || renderable d
                    | None => true
                    end
                 && forallb renderable opts
              then Presenting else Crashed
          | _ => Crashed
          end
        else ErrorDisplay
    end.
Proof.
  unfold loadQuestion, phase, render, card_ok.
  destruct (fetchGameQuestion ai mode) as [v|err]; simpl; [|done].
  destruct (truthy v); [|done].
  destruct (child_ok (get_prop (js "questionText") v)); simpl;
    [|by repeat case_match].
  destruct (get_prop (js "details") v) as [d|]; simpl.
  - destruct (truthy d); simpl; [destruct (renderable d); simpl|];
      by repeat case_match.
  - by repeat case_match.
Qed.

(** ** X11: a question without a correct answer *)

(** X11: when nothing is selected and the question has no [correctAnswer]
    that an option could be strictly equal to (no question at all, no such
    property, or a property that is an array or an object), [handleAnswer]
    judges every option wrong: the selection is recorded, the verdict is
    false, the streak becomes 0 and [updateScore] is not called. *)
Theorem no_correctAnswer_always_wrong o s :
  truthy (selectedOption s) = false ->
  (forall c, get_prop (js "correctAnswer") (question s) = Some c ->
     (exists l, c = JArray l) \/ (exists ms, c = JObject ms)) ->
  handleAnswer o s =
    ({| question := question s; loading := loading s;
        selectedOption := o; isCorrect := Some false;
        streak := 0 |}, []).
Proof.
  intros Hsel Hno. apply handleAnswer_wrong; [done|].
  rewrite is_correct_answer_prop.
  destruct (get_prop _ _) as [c|] eqn:E; [|done].
  destruct (Hno c eq_refl) as [[l ->]|[ms ->]];
    [apply strict_equal_array|apply strict_equal_object].
Qed.

Lemma no_correctAnswer_always_wrong_witness :
  handleAnswer (JString (js "a"))
    (loadQuestion (replying (quoted "{'options':['a'],'correctAnswer':['a']}"))
       SONG mount)
  = ({| question := JObject [(js "options", JArray [JString (js "a")]);
                             (js "correctAnswer", JArray [JString (js "a")])];
        loading := false; selectedOption := JString (js "a");
        isCorrect := Some false; streak := 0 |}, []).
Proof.
  refine (no_correctAnswer_always_wrong (JString (js "a"))
           (loadQuestion
              (replying (quoted "{'options':['a'],'correctAnswer':['a']}"))
              SONG mount)
           eq_refl _).
  intros c H. left. exists [JString (js "a")].
  vm_compute in H. injection H as <-. reflexivity.
Defined.

(** ** X12: what the schema admits *)

Lemma Question_object_lookups q :
  get_prop (js "questionText") (Question_object q)
    = Some (JString (questionText q)) /\
  get_prop (js "details") (Question_object q) = JString <$> details q /\
  get_prop (js "options") (Question_object q)
    = Some (JArray (JString <$> options q)) /\
  get_prop (js "correctAnswer") (Question_object q)
    = Some (JString (correctAnswer q)) /\
  get_prop (js "explanation") (Question_object q)
    = Some (JString (explanation q)).
Proof.
  unfold Question_object, get_prop.
  generalize (JString <$> options q). intros l.
  destruct (details q); vm_compute; by split_and!.
Qed.

(** X12: every question, with any number of options and any correct answer,
    among the options or not, spelled out as an object conforms to the
    schema of [getQuestionSchema], and read back as a Question it is the
    same question. *)
Theorem schema_admits_every_question q :
  conforms getQuestionSchema (Question_object q) = true /\
  asQuestion (Question_object q) = Some q.
Proof.
  destruct (Question_object_lookups q) as (Hqt & Hd & Ho & Hc & He).
  assert (asQuestion (Question_object q) = Some q) as Hq.
  { unfold asQuestion, string_prop, optional_string_prop, strings_prop.
    rewrite Hqt, Hd, Ho, Hc, He, as_strings_fmap.
    destruct q as [qt [d|] os ca ex]; done. }
  split; [|done]. apply conforms_asQuestion. eauto.
Qed.

(** ** X14 and X15: the menu, the header and the screen *)

(** X14: the menu has a card for every mode but the menu itself, and for no
    other; a card shows the icon that the header of its mode shows; its
    title is the header's title for the song and card modes, and a
    different one for the idol mode; only the menu mode has an empty title
    and no icon. *)
Theorem menu_and_header :
  (forall m, (exists i t, (m, i, t) ∈ menuCards) <-> m <> MENU) /\
  (forall m i t, (m, i, t) ∈ menuCards ->
     getModeIcon m = Some i /\ (getModeTitle m = t <-> m <> IDOL)) /\
  (forall m, getModeTitle m = [] <-> m = MENU) /\
  (forall m, getModeIcon m = None <-> m = MENU).
Proof.
  split_and!.
  - intros m. split.
    + intros (i & t & H). apply list_elem_of_In in H.
      destruct H as [H|[H|[H|[]]]]; by simplify_eq.
    + intros Hm. destruct m; [| | |done]; do 2 eexists; unfold menuCards.
      * apply list_elem_of_here.
      * apply list_elem_of_further, list_elem_of_here.
      * do 2 apply list_elem_of_further. apply list_elem_of_here.
  - intros m i t H. apply list_elem_of_In in H.
    destruct H as [H|[H|[H|[]]]]; simplify_eq; (split; [done|]);
      split; try done; intros H; vm_compute in H; discriminate.
  - intros m. destruct m; split; try done; intros H; vm_compute in H;
      discriminate.
  - intros m. by destruct m.
Qed.

Lemma menu_and_header_witness :
  getModeIcon IDOL = Some User /\
  (getModeTitle IDOL = [29468; 20154; 36938; 25138] <-> IDOL <> IDOL).
Proof.
  refine (proj1 (proj2 menu_and_header) IDOL User _ _).
  apply list_elem_of_further, list_elem_of_here.
Defined.

(** X15: in every reachable state the screen is the menu, with the score
    and the cards, exactly when no session is mounted; otherwise it is the
    game view of the session, whose header has a title and an icon, unless
    rendering the session throws, which leaves the page blank. *)
Theorem screen_of_reachable a :
  reachable a ->
  match App_render a with
  | MenuScreen p cards => session a = None /\ p = score a /\ cards = menuCards
  | GameScreen v =>
      exists s, session a = Some s /\ phase s <> Crashed /\
                v = GameSession_render (currentMode a) s /\
                title v <> [] /\ icon v <> None
  | Blank => exists s, session a = Some s /\ phase s = Crashed
  end.
Proof.
  intros Hr. destruct (reachable_invariant a Hr) as (_ & Hmenu & _).
  unfold App_render. destruct (decide (currentMode a = MENU)) as [Hm|Hm].
  - split_and!; [by apply Hmenu|done..].
  - destruct (session a) as [s|] eqn:Hs; [|by destruct Hm; apply Hmenu].
    simpl. unfold phase.
    assert (getModeTitle (currentMode a) <> [] /\
            getModeIcon (currentMode a) <> None) as [Ht Hi].
    { destruct (currentMode a); try done; split; try done;
        intros H; vm_compute in H; discriminate. }
    destruct (render s) eqn:E; exists s; simpl; rewrite ?E; by split_and!.
Qed.

Lemma screen_of_reachable_witness :
  exists s, session answered_once = Some s /\ phase s <> Crashed /\
    GameSession_render SONG (default mount (session answered_once))
      = GameSession_render (currentMode answered_once) s /\
    title (GameSession_render SONG (default mount (session answered_once)))
      <> [] /\
    icon (GameSession_render SONG (default mount (session answered_once)))
      <> None.
Proof.
  exact (screen_of_reachable answered_once reachable_answered_once).
Defined.

(** ** X16: a load starts from scratch *)

(** X16: the state in which [loadQuestion] ends depends on the state in
    which it starts only through the streak: the question, the selection
    and the verdict of before are forgotten, whatever the fetch delivers. *)
Theorem load_forgets_previous ai mode s1 s2 :
  streak s1 = streak s2 -> loadQuestion ai mode s1 = loadQuestion ai mode s2.
Proof.
  intros H. unfold loadQuestion, loadQuestion_begin.
  destruct s1, s2; simpl in H; subst.
  by destruct (fetchGameQuestion ai mode).
Qed.

Lemma load_forgets_previous_witness :
  loadQuestion (replying reply_three_options) SONG mount
  = loadQuestion (replying reply_three_options) SONG
      (loadQuestion (replying reply_four_options) SONG mount).
Proof.
  exact (load_forgets_previous (replying reply_three_options) SONG mount
           (loadQuestion (replying reply_four_options) SONG mount) eq_refl).
Defined.
